(** * Superbus: a publish/subscribe bus with channel specificity

    A shallow embedding of [src/superbus.ts] (class [Superbus]) and the
    properties its specification states about it.

    Modelling decisions, all taken from the source:
    - a channel is a [string]; [_sep] is the separator kept by the
      constructor, which replaces an empty separator by [":"];
    - [_subs] is a plain object ([= {}]): [this._subs[channel]] finds the
      Set object the bus has stored under the channel, or else what a
      plain object inherits from [Object.prototype] under that name
      ("constructor", "toString", "__proto__", ...), which is not a Set, or
      else [undefined].  [Object.prototype] is the standard one;
    - a Set object has an identity: the registry holds references ([loc])
      into a store of sets, because [sendLater] captures the reference and
      [removeAllSubscriptions] and the unsubscribe function mutate the
      object behind it.  A set is the list of its members in insertion
      order, which is the order [for (let cb of cbs)] enumerates;
    - an array of channels given to [on] is the caller's: [on] and the
      unsubscribe function it returns hold a reference to it ([aref]) and
      read what it holds when they run.  What the caller's arrays hold at a
      moment is a function [arrays];
    - a [TypeError] leaves the loop it is raised in: [on] then returns no
      unsubscribe function, and the bus stays as the loop left it;
    - a callback is known to the bus by reference ([cbid]).  What a call
      does is given by a function [behave] of the history of calls: it
      returns a plain value, raises, or returns a Promise.  Callbacks do
      not subscribe or unsubscribe while a dispatch loop is enumerating;
    - the [async] function [sendAndWait] is a coroutine: it runs up to its
      next [await], and is resumed by the event loop once the awaited
      [Promise.all] has settled.  Between two of its turns Promises settle
      and other code may change the registry;
    - [process.nextTick] is a FIFO queue of closures; an exception that
      leaves one of them is uncaught and ends the process. *)

From Stdlib Require Import String Ascii ZArith List Lia.
From stdpp Require Import gmap strings list fin_maps.
Import ListNotations.
Local Open Scope string_scope.
Local Open Scope list_scope.

(** ** Strings: [indexOf] and [split] *)

(** [String.prototype.indexOf]: the position of the first occurrence of
    [sep] in [s], and [-1] when there is none. *)
Definition indexOf (s sep : string) : Z :=
  match String.index 0 sep s with
  | Some i => Z.of_nat i
  | None => (-1)%Z
  end.

(** [s.split(sep, 1)] for a non-empty [sep]: the array holding the piece of
    [s] in front of the first occurrence of [sep] (all of [s] when [sep]
    does not occur). *)
Definition split1 (s sep : string) : list string :=
  match String.index 0 sep s with
  | Some i => [String.substring 0 i s]
  | None => [s]
  end.

(** The constructor: [this._sep = sep || ':']. *)
Definition mk_sep (sep : string) : string :=
  match sep with
  | EmptyString => ":"
  | _ => sep
  end.

(** ** The channel expander *)

Definition _expandChannelsToListeners (_sep channel : string) : list string :=
  let channels := [channel] in
  let channels :=
    if negb (indexOf channel _sep =? -1)%Z then
      match split1 channel _sep with
      | baseChannel :: _ => channels ++ [baseChannel]
      | [] => channels
      end
    else channels in
  channels ++ ["*"].

(** The words of the specification about a channel [c]: it contains the
    separator; [p] is its prefix up to, and not including, the first
    occurrence of the separator. *)
Definition occurs (sep c : string) : Prop :=
  ∃ p r, c = p +:+ sep +:+ r.

Definition first_split (sep c p : string) : Prop :=
  (∃ r, c = p +:+ sep +:+ r) ∧
  ∀ p' r', c = p' +:+ sep +:+ r' → (String.length p ≤ String.length p')%nat.

(** ** The registry and the store of Set objects *)

(** References: a callback, a Set object, a Promise, an array of the
    caller. *)
Definition cbid := nat.
Definition loc := nat.
Definition pid := nat.
Definition aref := nat.

(** What the arrays of the caller hold at some moment. *)
Definition arrays := aref → list string.

(** [Set.prototype.add], [delete] and [size] on the members of a set, kept
    in insertion order. *)
Definition Set_add (cb : cbid) (s : list cbid) : list cbid :=
  if decide (cb ∈ s) then s else s ++ [cb].

Definition Set_delete (cb : cbid) (s : list cbid) : list cbid :=
  filter (λ x, x ≠ cb) s.

Definition Set_size (s : list cbid) : nat := length s.

(** An instance of [Superbus] together with the Set objects it has created:
    [_subs] holds the own properties of the object [this._subs], each a
    reference to a Set object; [sets] holds the members behind each
    reference; [next_ref] is the reference the next [new Set()] gets. *)
Record bus := Bus {
  _sep : string;
  _subs : gmap string loc;
  sets : gmap loc (list cbid);
  next_ref : loc
}.

Definition new_Superbus (sep : string) : bus :=
  {| _sep := mk_sep sep; _subs := ∅; sets := ∅; next_ref := 0 |}.

(** The names of the properties of [Object.prototype], which the plain
    object [this._subs] inherits. *)
Definition Object_prototype : list string :=
  ["constructor"; "__defineGetter__"; "__defineSetter__"; "hasOwnProperty";
   "__lookupGetter__"; "__lookupSetter__"; "isPrototypeOf";
   "propertyIsEnumerable"; "toString"; "valueOf"; "__proto__";
   "toLocaleString"].

Definition inherited (name : string) : bool :=
  bool_decide (name ∈ Object_prototype).

(** What [this._subs[channel]] can be when it is not [undefined]: a Set
    object of the bus, or an inherited value (a function, or the prototype
    itself under "__proto__"), which has no [add], [delete] or [size] and
    cannot be iterated. *)
Inductive value :=
| A_Set (l : loc)
| Not_a_Set.

#[global] Instance value_eq_dec : EqDecision value.
Proof. solve_decision. Defined.

(** [this._subs[channel]]: the own property first, then the prototype;
    [None] is [undefined]. *)
Definition subs_at (b : bus) (channel : string) : option value :=
  match _subs b !! channel with
  | Some l => Some (A_Set l)
  | None => if inherited channel then Some Not_a_Set else None
  end.

(** The members of the Set object behind a reference. *)
Definition deref (b : bus) (l : loc) : list cbid := default [] (sets b !! l).

(** One turn of the first loop of [on]:
    [let set = (this._subs[channel] ??= new Set()); set.add(callback)].
    [??=] assigns only when the entry is [undefined]; on an inherited value
    [set.add] is not a function and the call raises a [TypeError]
    ([None]). *)
Definition subscribe1 (callback : cbid) (b : bus) (channel : string)
  : option bus :=
  match subs_at b channel with
  | Some (A_Set l) =>
      Some {| _sep := _sep b; _subs := _subs b;
              sets := <[l := Set_add callback (deref b l)]> (sets b);
              next_ref := next_ref b |}
  | Some Not_a_Set => None
  | None =>
      let l := next_ref b in
      Some {| _sep := _sep b; _subs := <[channel := l]> (_subs b);
              sets := <[l := Set_add callback []]> (sets b);
              next_ref := S l |}
  end.

(** The loop [for (let channel of channels)] of [on]: the bus as the loop
    leaves it, and whether it ended without an exception. *)
Fixpoint subscribe_each (callback : cbid) (b : bus) (channels : list string)
  : bus * bool :=
  match channels with
  | [] => (b, true)
  | channel :: rest =>
      match subscribe1 callback b channel with
      | Some b' => subscribe_each callback b' rest
      | None => (b, false)
      end
  end.

(** The unsubscribe function returned by [on]: a closure over [channels]
    and [callback].  [channels] is an array of the closure's own when a
    string was given, and the caller's array otherwise, held by
    reference. *)
Record thunk := Thunk { th_channels : string + aref; th_callback : cbid }.

(** [(typeof channelInput === 'string') ? [channelInput] : channelInput],
    as the loops read it when the arrays hold [mem]. *)
Definition channels_of (mem : arrays) (channelInput : string + aref)
  : list string :=
  match channelInput with
  | inl channel => [channel]
  | inr a => mem a
  end.

(** [on(channelInput, callback)], called when the arrays hold [mem]: the
    bus afterwards, and the unsubscribe function unless the call raised. *)
Definition on (channelInput : string + aref) (callback : cbid) (mem : arrays)
    (b : bus) : bus * option thunk :=
  match subscribe_each callback b (channels_of mem channelInput) with
  | (b', true) => (b', Some (Thunk channelInput callback))
  | (b', false) => (b', None)
  end.

(** One turn of the loop of the unsubscribe function:
    [let set = this._subs[channel]; if (set !== undefined) {
    set.delete(callback); if (set.size === 0) delete this._subs[channel] }].
    On an inherited value [set.delete] is not a function ([None]). *)
Definition unsubscribe1 (callback : cbid) (b : bus) (channel : string)
  : option bus :=
  match subs_at b channel with
  | Some (A_Set l) =>
      let set := Set_delete callback (deref b l) in
      let sets' := <[l := set]> (sets b) in
      if (Set_size set =? 0)%nat then
        Some {| _sep := _sep b; _subs := delete channel (_subs b);
                sets := sets'; next_ref := next_ref b |}
      else
        Some {| _sep := _sep b; _subs := _subs b; sets := sets';
                next_ref := next_ref b |}
  | Some Not_a_Set => None
  | None => Some b
  end.

Fixpoint unsubscribe_each (callback : cbid) (b : bus) (channels : list string)
  : bus * bool :=
  match channels with
  | [] => (b, true)
  | channel :: rest =>
      match unsubscribe1 callback b channel with
      | Some b' => unsubscribe_each callback b' rest
      | None => (b, false)
      end
  end.

(** Calling the unsubscribe function when the arrays hold [mem]: the bus
    afterwards, and whether the call returned without an exception. *)
Definition unsubscribe (t : thunk) (mem : arrays) (b : bus) : bus * bool :=
  unsubscribe_each (th_callback t) b (channels_of mem (th_channels t)).

(** [Object.values(this._subs)]: the references the registry holds. *)
Definition values (b : bus) : list loc := (map_to_list (_subs b)).*2.

(** [set.clear()] on each of the given Set objects. *)
Definition clear_sets (ls : list loc) (h : gmap loc (list cbid))
  : gmap loc (list cbid) :=
  foldl (λ h l, <[l := []]> h) h ls.

Definition removeAllSubscriptions (b : bus) : bus :=
  {| _sep := _sep b; _subs := ∅;
     sets := clear_sets (values b) (sets b);
     next_ref := next_ref b |}.

(** The callbacks registered under a channel: the members of the Set object
    the registry holds under it, none when it holds no Set under it. *)
Definition registered (b : bus) (channel : string) : list cbid :=
  match _subs b !! channel with
  | Some l => deref b l
  | None => []
  end.

(** The callbacks a value of [this._subs[channel]] holds. *)
Definition members (b : bus) (cbs : value) : list cbid :=
  match cbs with
  | A_Set l => deref b l
  | Not_a_Set => []
  end.

(** The channels a loop over [channels] gets through before an inherited
    name stops it. *)
Fixpoint reached (channels : list string) : list string :=
  match channels with
  | [] => []
  | channel :: rest =>
      if inherited channel then [] else channel :: reached rest
  end.

(** What the operations keep true of a bus: a registered set has a member,
    two channels never share a Set object, the registered references are
    older than [next_ref], a Set object the registry has let go of is
    empty, no Set is stored under an inherited name, and the separator is
    not empty. *)
Record wf (b : bus) : Prop := {
  wf_nonempty : ∀ k l, _subs b !! k = Some l → deref b l ≠ [];
  wf_inj : ∀ k1 k2 l, _subs b !! k1 = Some l → _subs b !! k2 = Some l → k1 = k2;
  wf_next : ∀ k l, _subs b !! k = Some l → l < next_ref b;
  wf_orphan : ∀ l, (∀ k, _subs b !! k ≠ Some l) → deref b l = [];
  wf_own : ∀ k l, _subs b !! k = Some l → inherited k = false;
  wf_sep : _sep b ≠ EmptyString
}.

(** What other code can do to the registry: subscribe, call an unsubscribe
    function, or remove all subscriptions.  A call is made when the arrays
    hold some [mem]; an exception it raises goes to the caller, and the bus
    stays as the call left it. *)
Inductive mutation :=
| Subscribe (channelInput : string + aref) (callback : cbid)
| Unsubscribe (t : thunk)
| RemoveAll.

Definition mutate (mem : arrays) (b : bus) (m : mutation) : bus :=
  match m with
  | Subscribe channelInput callback => (on channelInput callback mem b).1
  | Unsubscribe t => (unsubscribe t mem b).1
  | RemoveAll => removeAllSubscriptions b
  end.

Definition mutate_all (b : bus) (ms : list (arrays * mutation)) : bus :=
  foldl (λ b m, mutate m.1 b m.2) b ms.

(** ** Dispatch *)

Section Dispatch.

(** The payload of a message ([data?: any]). *)
Context {Data : Type}.

(** What a call [cb(channel, data)] comes to. *)
Inductive outcome :=
| Returned                (* a value that is not a Promise *)
| Raised                  (* an exception *)
| Deferred (p : pid).     (* a Promise *)

(** One call, as it was made, with what it came to. *)
Record call := Call {
  c_cb : cbid;
  c_channel : string;
  c_data : Data;
  c_result : outcome
}.

(** The callbacks: what the call [cb(channel, data)] does after the calls
    in [log] have been made. *)
Variable behave : list call → cbid → string → Data → outcome.

(** The loop [for (let cb of cbs) { let prom = cb(channel, data); if (prom
    instanceof Promise) proms.push(prom) }].  [None] when a callback
    raised: the exception leaves the loop. *)
Fixpoint call_all (cbs : list cbid) (channel : string) (data : Data)
    (log : list call) (proms : list pid) : list call * option (list pid) :=
  match cbs with
  | [] => (log, Some proms)
  | cb :: cbs' =>
      let prom := behave log cb channel data in
      let log' := log ++ [Call cb channel data prom] in
      match prom with
      | Returned => call_all cbs' channel data log' proms
      | Raised => (log', None)
      | Deferred p => call_all cbs' channel data log' (proms ++ [p])
      end
  end.

(** The same loop over a value [cbs] of [this._subs[listener]]: a value
    that is not a Set is not iterable, and [for ... of] raises a
    [TypeError] before any call. *)
Definition call_each (b : bus) (cbs : value) (channel : string) (data : Data)
    (log : list call) (proms : list pid) : list call * option (list pid) :=
  match cbs with
  | A_Set l => call_all (deref b l) channel data log proms
  | Not_a_Set => (log, None)
  end.

(** [cbs.size === 0]: a value that is not a Set has no [size]. *)
Definition size_is_0 (b : bus) (cbs : value) : bool :=
  match cbs with
  | A_Set l => (Set_size (deref b l) =? 0)%nat
  | Not_a_Set => false
  end.

(** *** [sendAndWait] *)

(** The state of one call of [sendAndWait]: suspended in
    [await Promise.all(proms).finally()] with the listeners still to
    visit, or settled. *)
Inductive activation :=
| Awaiting (channel : string) (data : Data) (proms : list pid)
           (listeners : list string)
| Resolved
| Rejected.

(** The body of the loop over [listeners], run up to the next [await]; an
    exception that leaves it rejects the Promise of the [async]
    function. *)
Fixpoint levels (b : bus) (channel : string) (data : Data)
    (listeners : list string) (log : list call) : list call * activation :=
  match listeners with
  | [] => (log, Resolved)
  | listener :: rest =>
      match subs_at b listener with
      | None => levels b channel data rest log
      | Some cbs =>
          if size_is_0 b cbs then
            levels b channel data rest log
          else
            match call_each b cbs channel data log [] with
            | (log', Some proms) => (log', Awaiting channel data proms rest)
            | (log', None) => (log', Rejected)
            end
      end
  end.

(** The call itself: everything up to the first [await]. *)
Definition sendAndWait (b : bus) (channel : string) (data : Data)
    (log : list call) : list call * activation :=
  levels b channel data (_expandChannelsToListeners (_sep b) channel) log.

(** The state of a Promise; a store maps the settled ones to [true]
    (fulfilled) or [false] (rejected). *)
Inductive pstate := Pending | Fulfilled | Failed.

Definition pstate_of (store : gmap pid bool) (p : pid) : pstate :=
  match store !! p with
  | Some true => Fulfilled
  | Some false => Failed
  | None => Pending
  end.

Definition is_failed (st : pstate) : bool :=
  match st with Failed => true | _ => false end.

Definition is_fulfilled (st : pstate) : bool :=
  match st with Fulfilled => true | _ => false end.

(** [Promise.all(proms)]: rejected as soon as one member is, fulfilled once
    all are.  [.finally()] without a handler passes the state on. *)
Definition promise_all (store : gmap pid bool) (proms : list pid) : pstate :=
  if existsb (λ p, is_failed (pstate_of store p)) proms then Failed
  else if forallb (λ p, is_fulfilled (pstate_of store p)) proms then Fulfilled
  else Pending.

(** The event loop gives the coroutine a turn: it goes on after its
    [await] when the awaited Promise is fulfilled, its own Promise is
    rejected when the awaited one is, and it stays suspended otherwise. *)
Definition resume (b : bus) (store : gmap pid bool) (log : list call)
    (a : activation) : list call * activation :=
  match a with
  | Awaiting channel data proms rest =>
      match promise_all store proms with
      | Fulfilled => levels b channel data rest log
      | Failed => (log, Rejected)
      | Pending => (log, a)
      end
  | Resolved => (log, Resolved)
  | Rejected => (log, Rejected)
  end.

(** What happens around one publish: a Promise settles, the event loop
    gives the coroutine a turn, or other code makes a call [m] on the bus
    when the arrays hold [mem]. *)
Inductive tick :=
| Settle (p : pid) (ok : bool)
| Wake
| Client (mem : arrays) (m : mutation).

Record run_state := RunState {
  r_bus : bus;
  r_log : list call;
  r_store : gmap pid bool;
  r_act : activation
}.

(** A Promise settles once. *)
Definition settle (p : pid) (ok : bool) (store : gmap pid bool)
  : gmap pid bool :=
  match store !! p with
  | Some _ => store
  | None => <[p := ok]> store
  end.

Definition step (s : run_state) (t : tick) : run_state :=
  match t with
  | Settle p ok =>
      RunState (r_bus s) (r_log s) (settle p ok (r_store s)) (r_act s)
  | Wake =>
      let '(log', a') := resume (r_bus s) (r_store s) (r_log s) (r_act s) in
      RunState (r_bus s) log' (r_store s) a'
  | Client mem m =>
      RunState (mutate mem (r_bus s) m) (r_log s) (r_store s) (r_act s)
  end.

Definition run (sched : list tick) (s : run_state) : run_state :=
  foldl step s sched.

(** A publish from its call on, under a schedule of what happens around
    it. *)
Definition publish_and_wait (b : bus) (channel : string) (data : Data)
    (store : gmap pid bool) (sched : list tick) : run_state :=
  let '(log, a) := sendAndWait b channel data [] in
  run sched (RunState b log store a).

(** No other code changes the registry during the schedule. *)
Definition is_client (t : tick) : bool :=
  match t with
  | Client _ _ => true
  | _ => false
  end.

Definition undisturbed (sched : list tick) : Prop :=
  forallb (λ t, negb (is_client t)) sched = true.

(** *** [sendLater] *)

(** The closure given to [process.nextTick]: it holds the value [cbs] (a
    reference when it is a Set), [channel] and [data]. *)
Record task := Task {
  t_cbs : value;
  t_channel : string;
  t_data : Data
}.

(** The bus, the queue of [process.nextTick] (oldest first) and the calls
    made so far. *)
Record world := World {
  w_bus : bus;
  w_queue : list task;
  w_log : list call
}.

(** The loop of [sendLater] over [listeners]. *)
Fixpoint later_levels (b : bus) (channel : string) (data : Data)
    (listeners : list string) (queue : list task) : list task :=
  match listeners with
  | [] => queue
  | listener :: rest =>
      match subs_at b listener with
      | None => later_levels b channel data rest queue
      | Some cbs =>
          if size_is_0 b cbs then
            later_levels b channel data rest queue
          else
            later_levels b channel data rest (queue ++ [Task cbs channel data])
      end
  end.

Definition sendLater (channel : string) (data : Data) (w : world) : world :=
  let listeners := _expandChannelsToListeners (_sep (w_bus w)) channel in
  World (w_bus w)
        (later_levels (w_bus w) channel data listeners (w_queue w))
        (w_log w).

(** Running one queued closure: [for (let cb of cbs) cb(channel, data)],
    on the members the Set object has now.  The results are dropped; the
    flag tells whether the loop ended without an exception. *)
Definition run_task (b : bus) (t : task) (log : list call) : list call * bool :=
  match call_each b (t_cbs t) (t_channel t) (t_data t) log [] with
  | (log', Some _) => (log', true)
  | (log', None) => (log', false)
  end.

(** The queue is drained from its head; an exception that leaves a closure
    is uncaught and ends the process. *)
Fixpoint drain_queue (b : bus) (queue : list task) (log : list call)
  : list call :=
  match queue with
  | [] => log
  | t :: queue' =>
      match run_task b t log with
      | (log', true) => drain_queue b queue' log'
      | (log', false) => log'
      end
  end.

Definition drain (w : world) : world :=
  World (w_bus w) [] (drain_queue (w_bus w) (w_queue w) (w_log w)).

(** The other operations, on a world. *)
Definition w_on (channelInput : string + aref) (callback : cbid)
    (mem : arrays) (w : world) : world * option thunk :=
  let '(b', t) := on channelInput callback mem (w_bus w) in
  (World b' (w_queue w) (w_log w), t).

Definition w_unsubscribe (t : thunk) (mem : arrays) (w : world) : world :=
  World (unsubscribe t mem (w_bus w)).1 (w_queue w) (w_log w).

Definition w_removeAllSubscriptions (w : world) : world :=
  World (removeAllSubscriptions (w_bus w)) (w_queue w) (w_log w).

Definition new_world (sep : string) : world := World (new_Superbus sep) [] [].

End Dispatch.

Arguments outcome : clear implicits.
Arguments call : clear implicits.
Arguments activation : clear implicits.
Arguments task : clear implicits.
Arguments world : clear implicits.
Arguments run_state : clear implicits.

(** ** Notions the properties are stated with *)

Section Plans.

Context {Data : Type}.

(** A call as the callback sees it: who is called, with which channel and
    payload. *)
Definition sig_of (x : call Data) : cbid * string * Data :=
  (c_cb x, c_channel x, c_data x).

Definition promise_of (x : call Data) : option pid :=
  match c_result x with
  | Deferred p => Some p
  | _ => None
  end.

(** The Promises the calls of a log returned. *)
Definition promises_of (log : list (call Data)) : list pid :=
  omap promise_of log.

Definition raised (x : call Data) : Prop := c_result x = Raised.

(** The calls one listener stands for, and those of a list of listeners,
    in order. *)
Definition level_plan (b : bus) (channel : string) (data : Data)
    (listener : string) : list (cbid * string * Data) :=
  (λ cb, (cb, channel, data)) <$> registered b listener.

Definition plan (b : bus) (channel : string) (data : Data)
    (listeners : list string) : list (cbid * string * Data) :=
  listeners ≫= level_plan b channel data.

(** The closure [sendLater] queues for one listener, if any: one that
    holds the Set of the listener when the Set has a member, one that holds
    the inherited value when the listener is an inherited name.  And those
    it queues for a channel. *)
Definition unit_for (b : bus) (channel : string) (data : Data)
    (listener : string) : option (task Data) :=
  match subs_at b listener with
  | Some (A_Set l) =>
      match deref b l with
      | [] => None
      | _ => Some (Task (A_Set l) channel data)
      end
  | Some Not_a_Set => Some (Task Not_a_Set channel data)
  | None => None
  end.

(** No listener of the list is an inherited name without a Set of its
    own. *)
Definition all_sets (b : bus) (listeners : list string) : Prop :=
  ∀ l, l ∈ listeners → subs_at b l ≠ Some Not_a_Set.

Definition units (b : bus) (channel : string) (data : Data)
  : list (task Data) :=
  omap (unit_for b channel data) (_expandChannelsToListeners (_sep b) channel).

(** What holds of a publish of [c] with [d] at every moment, whatever
    happens around it. *)
Definition publish_safe (c : string) (d : Data) (s : run_state Data) : Prop :=
  Forall (λ x, c_channel x = c ∧ c_data x = d) (r_log s) ∧
  match r_act s with
  | Awaiting c' d' ps rest =>
      c' = c ∧ d' = d ∧
      Forall (λ x, ¬ raised x) (r_log s) ∧
      (∀ p, p ∈ promises_of (r_log s) → p ∈ ps ∨ r_store s !! p = Some true)
  | Resolved =>
      Forall (λ x, ¬ raised x) (r_log s) ∧
      (∀ p, p ∈ promises_of (r_log s) → r_store s !! p = Some true)
  | Rejected =>
      ∀ i x, r_log s !! i = Some x → raised x → S i = length (r_log s)
  end.

(** What holds in addition when the registry stays as it was, [b]. *)
Definition publish_inv (b : bus) (c : string) (d : Data)
    (s : run_state Data) : Prop :=
  let listeners := _expandChannelsToListeners (_sep b) c in
  r_bus s = b ∧
  (sig_of <$> r_log s) `prefix_of` plan b c d listeners ∧
  match r_act s with
  | Awaiting _ _ _ rest =>
      ∃ visited, listeners = visited ++ rest ∧
                 sig_of <$> r_log s = plan b c d visited
  | Resolved => sig_of <$> r_log s = plan b c d listeners
  | Rejected => True
  end.

End Plans.

(** ** Scenarios *)

(** The caller has no array; array [0] holds "open" and "close"; array [0]
    holds "open" only; array [0] holds "close" only. *)
Definition no_arrays : arrays := λ _, [].

Definition open_close : arrays :=
  λ a, match a with 0 => ["open"; "close"] | _ => [] end.

Definition just_open : arrays :=
  λ a, match a with 0 => ["open"] | _ => [] end.

Definition just_close : arrays :=
  λ a, match a with 0 => ["close"] | _ => [] end.

(** The bus of the test "channels with ids": callback [1] on "changed",
    [2] on "changed:12345", [3] on "*". *)
Definition ids_bus : bus :=
  let b := (on (inl "changed") 1 no_arrays (new_Superbus ":")).1 in
  let b := (on (inl "changed:12345") 2 no_arrays b).1 in
  (on (inl "*") 3 no_arrays b).1.

(** The unsubscribe function of its first subscription. *)
Definition changed_thunk : thunk := Thunk (inl "changed") 1.

(** Callbacks that return at once. *)
Definition plain : list (call nat) → cbid → string → nat → outcome :=
  λ _ _ _ _, Returned.

(** Callback [2] is [async] and returns Promise [7]; the others return at
    once. *)
Definition one_async : list (call nat) → cbid → string → nat → outcome :=
  λ _ cb _ _, if (cb =? 2)%nat then Deferred 7 else Returned.

(** Callback [1] raises. *)
Definition one_raises : list (call nat) → cbid → string → nat → outcome :=
  λ _ cb _ _, if (cb =? 1)%nat then Raised else Returned.

(** The event loop gives a first turn, Promise [7] is fulfilled, and three
    more turns follow. *)
Definition ids_sched : list tick := [Wake; Settle 7 true; Wake; Wake; Wake].

(** One callback on "a"; then [sendLater("a", 5)] followed by
    [removeAllSubscriptions()]. *)
Definition a_world : world nat :=
  (w_on (inl "a") 1 no_arrays (new_world ":")).1.

Definition a_world_cleared : world nat :=
  w_removeAllSubscriptions (sendLater "a" 5 a_world).



(** One callback subscribed by [on(arr, cb)] while [arr] holds "open", and
    the unsubscribe function of that call. *)
Definition array_bus : bus := (on (inr 0) 1 just_open (new_Superbus ":")).1.

Definition array_thunk : thunk := Thunk (inr 0) 1.


(** One callback subscribed by [on(arr, cb)] while [arr] holds "open" and
    "close", and then to "changed". *)
Definition open_close_bus : bus :=
  (on (inr 0) 1 open_close (new_Superbus ":")).1.

Definition open_close_changed_bus : bus :=
  (on (inl "changed") 1 open_close open_close_bus).1.

(** A client: two subscriptions, the first one undone, a third one. *)
Definition client_calls : list (arrays * mutation) :=
  [(open_close, Subscribe (inr 0) 1); (open_close, Subscribe (inl "*") 2);
   (open_close, Unsubscribe (Thunk (inr 0) 1));
   (open_close, Subscribe (inl "open") 3)].

(** The event loop gives a first turn, other code subscribes callback [4]
    to "*", and two more turns follow. *)
Definition busy_sched : list tick :=
  [Wake; Client no_arrays (Subscribe (inl "*") 4); Wake; Wake].

(** ** Set objects out of the registry's reach *)

(** After [removeAllSubscriptions] the Set objects made before it are out
    of reach: whatever is subscribed later gets Set objects of its own. *)
Definition newer_than (n : loc) (b : bus) : Prop :=
  wf b ∧ (n ≤ next_ref b)%nat ∧ ∀ k l, _subs b !! k = Some l → (n ≤ l)%nat.

(** A Set object the registry has let go of and cannot reach again. *)
Definition let_go (l : loc) (b : bus) : Prop :=
  wf b ∧ l < next_ref b ∧ ∀ k, _subs b !! k ≠ Some l.

(** * Properties *)

(** ** The expander on the examples of the documentation *)

Example expand_changed_123 :
  _expandChannelsToListeners ":" "changed:123" = ["changed:123"; "changed"; "*"].
Proof. reflexivity. Qed.

Example expand_two_colons :
  _expandChannelsToListeners ":" "changed:a:b:c" = ["changed:a:b:c"; "changed"; "*"].
Proof. reflexivity. Qed.

Example expand_banana :
  _expandChannelsToListeners ":" "banana" = ["banana"; "*"].
Proof. reflexivity. Qed.

(** ** Strings *)

Lemma append_String a s r : String a s +:+ r = String a (s +:+ r).
Proof. reflexivity. Qed.

Lemma append_empty r : EmptyString +:+ r = r.
Proof. reflexivity. Qed.

Ltac unapp := rewrite ?append_String, ?append_empty in *.

Lemma string_prefix_app (s1 s2 : string) :
  String.prefix s1 s2 = true ↔ ∃ r, s2 = s1 +:+ r.
Proof.
  revert s2. induction s1 as [|a s1 IH]; intros s2; simpl.
  - destruct s2; split; eauto.
  - destruct s2 as [|b s2]; simpl.
    + split; [discriminate | intros [r Hr]; discriminate].
    + destruct (Ascii.ascii_dec a b) as [->|Hab].
      * rewrite IH. split; intros [r Hr]; exists r; unapp; congruence.
      * split; [discriminate | intros [r Hr]; unapp; congruence].
Qed.

Lemma index0_cons (sep : string) a c :
  String.index 0 sep (String a c) =
  if String.prefix sep (String a c) then Some 0
  else S <$> String.index 0 sep c.
Proof. simpl. by destruct (String.index 0 sep c). Qed.

Lemma index0_Some (sep c : string) (i : nat) :
  String.index 0 sep c = Some i →
  first_split sep c (String.substring 0 i c) ∧
  String.length (String.substring 0 i c) = i.
Proof.
  revert i. induction c as [|a c IH]; intros i.
  - simpl. destruct sep; [|discriminate]. intros Hi; injection Hi as Hi; subst i. split; [|done].
    split; [by exists EmptyString | intros; simpl; lia].
  - rewrite index0_cons.
    destruct (String.prefix sep (String a c)) eqn:Hp.
    + intros Hi; injection Hi as Hi; subst i. apply string_prefix_app in Hp as [r Hr]. split; [|done].
      split; [exists r; simpl; by unapp | intros; simpl; lia].
    + destruct (String.index 0 sep c) as [j|] eqn:Hj; [|discriminate].
      intros Hi; injection Hi as Hi; subst i. destruct (IH j eq_refl) as [[[r Hr] Hmin] Hlen].
      simpl. split; [|by rewrite Hlen].
      split; [exists r; unapp; congruence |].
      intros p' r' Heq. destruct p' as [|a' p']; unapp.
      * assert (String.prefix sep (String a c) = true); [|congruence].
        apply string_prefix_app. by exists r'.
      * injection Heq as -> Heq. apply Hmin in Heq. simpl. lia.
Qed.

Lemma index0_None (sep c : string) :
  sep ≠ EmptyString → String.index 0 sep c = None → ¬ occurs sep c.
Proof.
  intros Hsep. induction c as [|a c IH].
  - intros _ (p & r & Heq). destruct p, sep; unapp; congruence.
  - rewrite index0_cons.
    destruct (String.prefix sep (String a c)) eqn:Hp; [discriminate|].
    destruct (String.index 0 sep c) eqn:Hj; [discriminate|].
    intros _ (p & r & Heq). destruct p as [|a' p]; unapp.
    + assert (String.prefix sep (String a c) = true); [|congruence].
      apply string_prefix_app. by exists r.
    + injection Heq as -> Heq. apply IH; [done|]. by exists p, r.
Qed.

Lemma app_inj_length (a b c d : string) :
  a +:+ b = c +:+ d → String.length a = String.length c → a = c ∧ b = d.
Proof.
  revert c. induction a as [|x a IH]; intros [|y c]; unapp; simpl; try done.
  intros [= -> Heq] [= Hlen]. destruct (IH _ Heq Hlen) as [-> ->]. done.
Qed.

Lemma first_split_unique (sep c p q : string) :
  first_split sep c p → first_split sep c q → p = q.
Proof.
  intros [[r Hr] Hp] [[r' Hr'] Hq].
  pose proof (Hp _ _ Hr'). pose proof (Hq _ _ Hr).
  subst c. by apply app_inj_length in Hr' as [-> _]; [|lia].
Qed.

(** Two prefixes of one string: the shorter is a prefix of the longer. *)
Lemma app_prefix_le (a b c d : string) :
  a +:+ b = c +:+ d → (String.length a ≤ String.length c)%nat →
  ∃ e, c = a +:+ e.
Proof.
  revert c. induction a as [|x a IH]; intros c; unapp; [by exists c|].
  destruct c as [|y c]; simpl; [lia|]. unapp.
  intros [= -> Heq] Hlen. destruct (IH c Heq) as [e ->]; [lia|]. by exists e.
Qed.

Lemma length_app_s (a b : string) :
  String.length (a +:+ b) = (String.length a + String.length b)%nat.
Proof. induction a; unapp; simpl; lia. Qed.

Lemma append_empty_r (a : string) : a +:+ EmptyString = a.
Proof. induction a; unapp; congruence. Qed.

Lemma app_assoc_s (a b c : string) : (a +:+ b) +:+ c = a +:+ (b +:+ c).
Proof. induction a; unapp; congruence. Qed.

Lemma first_split_extend (sep p r : string) :
  first_split sep (p +:+ sep) p → first_split sep (p +:+ sep +:+ r) p.
Proof.
  intros [_ Hmin]. split; [by exists r|].
  intros p' r' Heq.
  destruct (le_lt_dec (String.length p) (String.length p')) as [|Hlt]; [done|].
  rewrite <- !app_assoc_s in Heq.
  destruct (app_prefix_le (p' +:+ sep) r' (p +:+ sep) r) as [e He];
    [done | rewrite !length_app_s; lia |].
  rewrite app_assoc_s in He. apply Hmin in He. lia.
Qed.

(** ** The registry *)

Lemma mk_sep_nonempty sep : mk_sep sep ≠ EmptyString.
Proof. by destruct sep. Qed.

Lemma Set_add_nonempty cb s : Set_add cb s ≠ [].
Proof.
  unfold Set_add. case_decide as H; [|by destruct s].
  intros ->. by apply elem_of_nil in H.
Qed.

Lemma elem_of_Set_add cb x s : x ∈ Set_add cb s ↔ x = cb ∨ x ∈ s.
Proof.
  unfold Set_add. case_decide as H.
  - split; [by right | by intros [->|]].
  - rewrite elem_of_app, list_elem_of_singleton. tauto.
Qed.

Lemma elem_of_Set_delete cb x s : x ∈ Set_delete cb s ↔ x ≠ cb ∧ x ∈ s.
Proof. unfold Set_delete. by rewrite list_elem_of_filter. Qed.

Lemma Set_delete_id cb s : cb ∉ s → Set_delete cb s = s.
Proof.
  unfold Set_delete. induction s as [|x s IH]; [done|].
  rewrite not_elem_of_cons. intros [Hne Hs].
  rewrite filter_cons_True by done. by rewrite IH.
Qed.

Lemma Set_add_id cb s : cb ∈ s → Set_add cb s = s.
Proof. unfold Set_add. by case_decide. Qed.

Lemma deref_insert b l s l' subs n sep :
  deref (Bus sep subs (<[l := s]> (sets b)) n) l' =
  if decide (l = l') then s else deref b l'.
Proof.
  unfold deref; simpl. rewrite lookup_insert.
  by case_decide.
Qed.

(** *** The lookup [this._subs[channel]] *)

Lemma subs_at_Set b k l : subs_at b k = Some (A_Set l) ↔ _subs b !! k = Some l.
Proof.
  unfold subs_at. destruct (_subs b !! k) as [l'|].
  - split; intros [= ->]; done.
  - by destruct (inherited k).
Qed.

Lemma subs_at_None b k :
  subs_at b k = None ↔ _subs b !! k = None ∧ inherited k = false.
Proof.
  unfold subs_at. destruct (_subs b !! k) as [l'|].
  - split; [done | by intros [? _]].
  - destruct (inherited k); split; try done. by intros [_ ?].
Qed.

(** On a bus the operations have made, the lookup finds an inherited value
    exactly under the inherited names. *)
Lemma subs_at_inherited b k :
  wf b → subs_at b k = Some Not_a_Set ↔ inherited k = true.
Proof.
  intros Hwf. unfold subs_at. destruct (_subs b !! k) as [l'|] eqn:Hk.
  - rewrite (wf_own _ Hwf _ _ Hk). done.
  - by destruct (inherited k).
Qed.

Lemma registered_subs_at b k :
  registered b k = match subs_at b k with
                   | Some cbs => members b cbs
                   | None => []
                   end.
Proof.
  unfold registered, subs_at. destruct (_subs b !! k); [done|].
  by destruct (inherited k).
Qed.

Lemma inherited_star_prefix s : inherited (String "*" s) = false.
Proof.
  unfold inherited. apply bool_decide_eq_false. unfold Object_prototype.
  intros Hin. repeat (apply elem_of_cons in Hin as [Hin|Hin]; [discriminate|]).
  by apply elem_of_nil in Hin.
Qed.

Lemma reached_all ks : Forall (λ k, inherited k = false) ks → reached ks = ks.
Proof.
  induction 1 as [|k ks Hk _ IH]; [done|]. simpl. by rewrite Hk, IH.
Qed.

Lemma reached_all_inv ks : reached ks = ks → Forall (λ k, inherited k = false) ks.
Proof.
  induction ks as [|k ks IH]; [done|]. simpl.
  destruct (inherited k) eqn:Hk; [done|]. intros [= Heq]. auto.
Qed.

Lemma reached_sub ks k : k ∈ reached ks → k ∈ ks ∧ inherited k = false.
Proof.
  induction ks as [|k0 ks IH]; simpl; [by intros ?%elem_of_nil|].
  destruct (inherited k0) eqn:Hk0; [by intros ?%elem_of_nil|].
  rewrite elem_of_cons. intros [->|Hin].
  - split; [left|done].
  - destruct (IH Hin). split; [by right|done].
Qed.

Lemma reached_idemp ks : reached (reached ks) = reached ks.
Proof.
  apply reached_all, Forall_forall. intros k Hk. by apply reached_sub in Hk as [_ ?].
Qed.

(** *** The bus stays well formed *)

Lemma wf_new sep : wf (new_Superbus sep).
Proof.
  split; simpl; try (intros *; rewrite ?lookup_empty; done).
  apply mk_sep_nonempty.
Qed.

Ltac sub1 Hs Hk Hi :=
  unfold subscribe1, subs_at in Hs;
  destruct (_subs _ !! _) as [?l|] eqn:Hk;
    [|destruct (inherited _) eqn:Hi; [discriminate|]];
  injection Hs as <-.

Lemma subscribe1_None cb b k :
  subscribe1 cb b k = None ↔ subs_at b k = Some Not_a_Set.
Proof. unfold subscribe1. by destruct (subs_at b k) as [[l|]|]. Qed.

Lemma unsubscribe1_None cb b k :
  unsubscribe1 cb b k = None ↔ subs_at b k = Some Not_a_Set.
Proof.
  unfold unsubscribe1. destruct (subs_at b k) as [[l|]|]; try done.
  by case_match.
Qed.

Lemma subscribe1_wf cb b k b' : wf b → subscribe1 cb b k = Some b' → wf b'.
Proof.
  intros [Hne Hinj Hfr Hor Hown Hsep] Hs. sub1 Hs Hk Hi.
  - split; simpl.
    + intros k' l' Hk'. rewrite deref_insert. case_decide; eauto using Set_add_nonempty.
    + done.
    + done.
    + intros l' Hl'. rewrite deref_insert. case_decide as Hd; [|by eauto].
      subst l'. by destruct (Hl' k).
    + done.
    + done.
  - split; simpl.
    + intros k' l'. rewrite lookup_insert, deref_insert.
      destruct (decide (k = k')); [intros [= <-]; rewrite decide_True by done; apply Set_add_nonempty|].
      intros Hk'. case_decide; eauto using Set_add_nonempty.
    + intros k1 k2 l. rewrite !lookup_insert.
      repeat case_decide; try congruence.
      * intros [= <-] H2. apply Hfr in H2. lia.
      * intros H1 [= <-]. apply Hfr in H1. lia.
      * eauto.
    + intros k' l'. rewrite lookup_insert. case_decide; [intros [= <-]; lia|].
      intros H'. apply Hfr in H'. lia.
    + intros l' Hl'. rewrite deref_insert. case_decide as Hd.
      * subst l'. destruct (Hl' k). by rewrite lookup_insert_eq.
      * apply Hor. intros k' Hk'. apply (Hl' k'). rewrite lookup_insert_ne; [done|congruence].
    + intros k' l'. rewrite lookup_insert. case_decide; [by subst k'|eauto].
    + done.
Qed.

Ltac unsub1 Hs Hk Hi Hz :=
  unfold unsubscribe1, subs_at in Hs;
  destruct (_subs _ !! _) as [?l|] eqn:Hk;
    [match type of Hs with
     | context [Nat.eqb ?x 0] => destruct (Nat.eqb_spec x 0) as [Hz|Hz]
     end
    |destruct (inherited _) eqn:Hi; [discriminate|]];
  injection Hs as <-.

Lemma unsubscribe1_wf cb b k b' : wf b → unsubscribe1 cb b k = Some b' → wf b'.
Proof.
  intros Hwf Hs. pose proof Hwf as [Hne Hinj Hfr Hor Hown Hsep].
  unsub1 Hs Hk Hi Hz; [| |done].
  - apply length_zero_iff_nil in Hz. split; simpl.
    + intros k' l'. rewrite lookup_delete, deref_insert.
      case_decide; [done|]. intros Hk'. case_decide; [subst l'; destruct H; eauto | eauto].
    + intros k1 k2 l'. rewrite !lookup_delete. repeat case_decide; try done. eauto.
    + intros k' l'. rewrite lookup_delete. case_decide; [done|eauto].
    + intros l' Hl'. rewrite deref_insert. case_decide; [done|].
      apply Hor. intros k' Hk'. apply (Hl' k'). rewrite lookup_delete_ne; [done|congruence].
    + intros k' l'. rewrite lookup_delete. case_decide; [done|eauto].
    + done.
  - split; simpl.
    + intros k' l' Hk'. rewrite deref_insert. case_decide; [|eauto].
      intros Hnil. apply Hz. unfold Set_size. by rewrite Hnil.
    + done.
    + done.
    + intros l' Hl'. rewrite deref_insert. case_decide; [subst l'; by destruct (Hl' k)|eauto].
    + done.
    + done.
Qed.

Lemma elem_of_values b l : l ∈ values b ↔ ∃ k, _subs b !! k = Some l.
Proof.
  unfold values. rewrite list_elem_of_fmap. split.
  - intros [[k l'] [-> Hin]]. exists k. by apply elem_of_map_to_list.
  - intros [k Hk]. exists (k, l). split; [done|]. by apply elem_of_map_to_list.
Qed.

Lemma clear_sets_lookup ls h l :
  default [] (clear_sets ls h !! l) = if decide (l ∈ ls) then [] else default [] (h !! l).
Proof.
  unfold clear_sets. revert h. induction ls as [|x ls IH]; intros h; simpl.
  - destruct (decide (l ∈ [])) as [Hin|]; [by apply elem_of_nil in Hin | done].
  - rewrite IH. destruct (decide (l ∈ ls)) as [Hin|Hin].
    + by rewrite decide_True by (by right).
    + rewrite lookup_insert. destruct (decide (x = l)) as [->|Hne].
      * by rewrite decide_True by left.
      * rewrite decide_False; [done|]. rewrite elem_of_cons. intros [->|]; done.
Qed.

Lemma removeAll_deref b l : wf b → deref (removeAllSubscriptions b) l = [].
Proof.
  intros Hwf. unfold deref, removeAllSubscriptions; simpl.
  rewrite clear_sets_lookup. case_decide as Hin; [done|].
  apply (wf_orphan _ Hwf). intros k Hk. apply Hin, elem_of_values. eauto.
Qed.

Lemma removeAll_wf b : wf b → wf (removeAllSubscriptions b).
Proof.
  intros Hwf. split; try (simpl; intros *; by rewrite lookup_empty).
  - intros l _. by apply removeAll_deref.
  - apply (wf_sep _ Hwf).
Qed.

(** *** What one turn of a loop does to the callbacks of each channel *)

Lemma registered_subscribe1 cb b k k' b' :
  wf b → subscribe1 cb b k = Some b' →
  registered b' k' =
  if decide (k = k') then Set_add cb (registered b k') else registered b k'.
Proof.
  intros Hwf Hs. unfold registered. sub1 Hs Hk Hi; simpl.
  - case_decide as Hd.
    + subst k'. rewrite Hk. by rewrite deref_insert, decide_True.
    + destruct (_subs b !! k') as [l'|] eqn:Hk'; [|done].
      rewrite deref_insert, decide_False; [done|].
      intros ->. apply Hd. eapply (wf_inj _ Hwf); eauto.
  - rewrite lookup_insert. case_decide as Hd.
    + subst k'. rewrite Hk. by rewrite deref_insert, decide_True.
    + destruct (_subs b !! k') as [l'|] eqn:Hk'; [|done].
      rewrite deref_insert, decide_False; [done|].
      intros <-. apply (wf_next _ Hwf) in Hk'. lia.
Qed.

Lemma registered_unsubscribe1 cb b k k' b' :
  wf b → unsubscribe1 cb b k = Some b' →
  registered b' k' =
  if decide (k = k') then Set_delete cb (registered b k') else registered b k'.
Proof.
  intros Hwf Hs. unfold registered. unsub1 Hs Hk Hi Hz; simpl.
  - apply length_zero_iff_nil in Hz. rewrite lookup_delete.
    destruct (decide (k = k')) as [<-|Hd]; [by rewrite Hk, Hz|].
    destruct (_subs b !! k') as [l'|] eqn:Hk'; [|done].
    rewrite deref_insert, decide_False; [done|].
    intros ->. apply Hd. eapply (wf_inj _ Hwf); eauto.
  - destruct (decide (k = k')) as [<-|Hd].
    + rewrite Hk. by rewrite deref_insert, decide_True.
    + destruct (_subs b !! k') as [l'|] eqn:Hk'; [|done].
      rewrite deref_insert, decide_False; [done|].
      intros ->. apply Hd. eapply (wf_inj _ Hwf); eauto.
  - destruct (decide (k = k')) as [<-|Hd]; [by rewrite Hk|done].
Qed.

Lemma sep_subscribe1 cb b k b' : subscribe1 cb b k = Some b' → _sep b' = _sep b.
Proof. intros Hs. by sub1 Hs Hk Hi. Qed.


Lemma Set_add_add cb s : Set_add cb (Set_add cb s) = Set_add cb s.
Proof. apply Set_add_id, elem_of_Set_add. by left. Qed.

Lemma Set_delete_delete cb s : Set_delete cb (Set_delete cb s) = Set_delete cb s.
Proof. apply Set_delete_id. rewrite elem_of_Set_delete. tauto. Qed.

(** Adding a callback that is registered, or deleting one that is not,
    changes nothing. *)
Lemma subscribe1_present cb b k :
  wf b → cb ∈ registered b k → subscribe1 cb b k = Some b.
Proof.
  intros Hwf Hcb. unfold subscribe1, subs_at, registered in *.
  destruct (_subs b !! k) as [l|] eqn:Hk; [|by apply elem_of_nil in Hcb].
  rewrite Set_add_id by done.
  assert (sets b !! l = Some (deref b l)) as Hl.
  { pose proof (wf_nonempty _ Hwf _ _ Hk). unfold deref in *.
    by destruct (sets b !! l). }
  rewrite insert_id by done. by destruct b.
Qed.

Lemma unsubscribe1_absent cb b k :
  wf b → inherited k = false → cb ∉ registered b k → unsubscribe1 cb b k = Some b.
Proof.
  intros Hwf Hi Hcb. unfold unsubscribe1, subs_at, registered in *.
  destruct (_subs b !! k) as [l|] eqn:Hk; [|by rewrite Hi].
  rewrite Set_delete_id by done.
  pose proof (wf_nonempty _ Hwf _ _ Hk) as Hne.
  assert (sets b !! l = Some (deref b l)) as Hl.
  { unfold deref in *. by destruct (sets b !! l). }
  rewrite insert_id by done.
  destruct (Nat.eqb_spec (Set_size (deref b l)) 0) as [Hz|Hz].
  - by apply length_zero_iff_nil in Hz.
  - by destruct b.
Qed.

(** *** The two loops *)

(** A loop goes on after a name that is not inherited and stops at one
    that is. *)
Lemma subscribe_each_cons cb b k ks :
  wf b →
  if inherited k then subscribe_each cb b (k :: ks) = (b, false)
  else ∃ b', subscribe1 cb b k = Some b' ∧ wf b' ∧
             subscribe_each cb b (k :: ks) = subscribe_each cb b' ks.
Proof.
  intros Hwf. simpl. destruct (inherited k) eqn:Hi.
  - apply (subs_at_inherited b k Hwf) in Hi.
    apply (subscribe1_None cb) in Hi. by rewrite Hi.
  - destruct (subscribe1 cb b k) as [b'|] eqn:Hs.
    + exists b'. eauto using subscribe1_wf.
    + apply subscribe1_None, subs_at_inherited in Hs; [congruence|done].
Qed.

Lemma unsubscribe_each_cons cb b k ks :
  wf b →
  if inherited k then unsubscribe_each cb b (k :: ks) = (b, false)
  else ∃ b', unsubscribe1 cb b k = Some b' ∧ wf b' ∧
             unsubscribe_each cb b (k :: ks) = unsubscribe_each cb b' ks.
Proof.
  intros Hwf. simpl. destruct (inherited k) eqn:Hi.
  - apply (subs_at_inherited b k Hwf) in Hi.
    apply (unsubscribe1_None cb) in Hi. by rewrite Hi.
  - destruct (unsubscribe1 cb b k) as [b'|] eqn:Hs.
    + exists b'. eauto using unsubscribe1_wf.
    + apply unsubscribe1_None, subs_at_inherited in Hs; [congruence|done].
Qed.

Ltac loop_cons lemma cb b k ks Hwf b1 Hs Hwf1 Heq Hi :=
  pose proof (lemma cb b k ks Hwf) as Heq;
  cbn [reached]; destruct (inherited k) eqn:Hi;
    [|destruct Heq as (b1 & Hs & Hwf1 & Heq)]; rewrite Heq.

Lemma subscribe_each_wf cb ks b : wf b → wf (subscribe_each cb b ks).1.
Proof.
  revert b. induction ks as [|k ks IH]; intros b Hwf; [done|].
  loop_cons subscribe_each_cons cb b k ks Hwf b1 Hs Hwf1 Heq Hi; [done|].
  by apply IH.
Qed.

Lemma unsubscribe_each_wf cb ks b : wf b → wf (unsubscribe_each cb b ks).1.
Proof.
  revert b. induction ks as [|k ks IH]; intros b Hwf; [done|].
  loop_cons unsubscribe_each_cons cb b k ks Hwf b1 Hs Hwf1 Heq Hi; [done|].
  by apply IH.
Qed.

Lemma subscribe_each_sep cb ks b : wf b → _sep (subscribe_each cb b ks).1 = _sep b.
Proof.
  revert b. induction ks as [|k ks IH]; intros b Hwf; [done|].
  loop_cons subscribe_each_cons cb b k ks Hwf b1 Hs Hwf1 Heq Hi; [done|].
  rewrite IH by done. by eapply sep_subscribe1.
Qed.


(** A loop ends without an exception exactly when it meets no inherited
    name. *)
Lemma subscribe_each_ok cb ks b :
  wf b → (subscribe_each cb b ks).2 = true ↔ reached ks = ks.
Proof.
  revert b. induction ks as [|k ks IH]; intros b Hwf; [done|].
  loop_cons subscribe_each_cons cb b k ks Hwf b1 Hs Hwf1 Heq Hi; [done|].
  rewrite IH by done. split; [by intros ->|by intros [= ?]].
Qed.

Lemma unsubscribe_each_ok cb ks b :
  wf b → (unsubscribe_each cb b ks).2 = true ↔ reached ks = ks.
Proof.
  revert b. induction ks as [|k ks IH]; intros b Hwf; [done|].
  loop_cons unsubscribe_each_cons cb b k ks Hwf b1 Hs Hwf1 Heq Hi; [done|].
  rewrite IH by done. split; [by intros ->|by intros [= ?]].
Qed.

Lemma registered_subscribe_each cb ks b k' :
  wf b →
  registered (subscribe_each cb b ks).1 k' =
  if decide (k' ∈ reached ks) then Set_add cb (registered b k') else registered b k'.
Proof.
  revert b. induction ks as [|k ks IH]; intros b Hwf.
  - simpl. destruct (decide (k' ∈ [])) as [Hin|]; [by apply elem_of_nil in Hin | done].
  - loop_cons subscribe_each_cons cb b k ks Hwf b1 Hs Hwf1 Heq Hi.
    { simpl. destruct (decide (k' ∈ [])) as [Hin|]; [by apply elem_of_nil in Hin | done]. }
    rewrite IH by done.
    rewrite (registered_subscribe1 cb b k k' b1) by done.
    destruct (decide (k = k')) as [->|Hne].
    + rewrite (decide_True (P := k' ∈ k' :: reached ks)) by left.
      case_decide; [apply Set_add_add | done].
    + destruct (decide (k' ∈ reached ks)) as [Hin|Hin].
      * by rewrite decide_True by (by right).
      * rewrite decide_False; [done|]. rewrite elem_of_cons. intros [->|]; done.
Qed.

Lemma registered_unsubscribe_each cb ks b k' :
  wf b →
  registered (unsubscribe_each cb b ks).1 k' =
  if decide (k' ∈ reached ks) then Set_delete cb (registered b k') else registered b k'.
Proof.
  revert b. induction ks as [|k ks IH]; intros b Hwf.
  - simpl. destruct (decide (k' ∈ [])) as [Hin|]; [by apply elem_of_nil in Hin | done].
  - loop_cons unsubscribe_each_cons cb b k ks Hwf b1 Hs Hwf1 Heq Hi.
    { simpl. destruct (decide (k' ∈ [])) as [Hin|]; [by apply elem_of_nil in Hin | done]. }
    rewrite IH by done.
    rewrite (registered_unsubscribe1 cb b k k' b1) by done.
    destruct (decide (k = k')) as [->|Hne].
    + rewrite (decide_True (P := k' ∈ k' :: reached ks)) by left.
      case_decide; [apply Set_delete_delete | done].
    + destruct (decide (k' ∈ reached ks)) as [Hin|Hin].
      * by rewrite decide_True by (by right).
      * rewrite decide_False; [done|]. rewrite elem_of_cons. intros [->|]; done.
Qed.

Lemma subscribe_each_present cb ks b :
  wf b → (∀ k, k ∈ reached ks → cb ∈ registered b k) →
  (subscribe_each cb b ks).1 = b.
Proof.
  intros Hwf. induction ks as [|k ks IH]; intros Hks; [done|].
  pose proof (subscribe_each_cons cb b k ks Hwf) as Heq.
  cbn [reached] in Hks. destruct (inherited k) eqn:Hi; [by rewrite Heq|].
  destruct Heq as (b1 & Hs & _ & ->).
  rewrite subscribe1_present in Hs; [|done|apply Hks; left].
  injection Hs as <-. apply IH. intros k' Hk'. apply Hks. by right.
Qed.

Lemma unsubscribe_each_absent cb ks b :
  wf b → (∀ k, k ∈ reached ks → cb ∉ registered b k) →
  (unsubscribe_each cb b ks).1 = b.
Proof.
  intros Hwf. induction ks as [|k ks IH]; intros Hks; [done|].
  pose proof (unsubscribe_each_cons cb b k ks Hwf) as Heq.
  cbn [reached] in Hks. destruct (inherited k) eqn:Hi; [by rewrite Heq|].
  destruct Heq as (b1 & Hs & _ & ->).
  rewrite unsubscribe1_absent in Hs; [|done|done|apply Hks; left].
  injection Hs as <-. apply IH. intros k' Hk'. apply Hks. by right.
Qed.

(** *** [on] and the unsubscribe function *)

Lemma on_bus input cb mem b :
  (on input cb mem b).1 = (subscribe_each cb b (channels_of mem input)).1.
Proof. unfold on. by destruct (subscribe_each _ _ _) as [b' []]. Qed.

Lemma on_thunk input cb mem b :
  (on input cb mem b).2 =
  if (subscribe_each cb b (channels_of mem input)).2
  then Some (Thunk input cb) else None.
Proof. unfold on. by destruct (subscribe_each _ _ _) as [b' []]. Qed.

(** What a call of [on] that returned is known to have done. *)
Lemma on_returned input cb mem b b' h :
  wf b → on input cb mem b = (b', Some h) →
  h = Thunk input cb ∧ b' = (subscribe_each cb b (channels_of mem input)).1 ∧
  reached (channels_of mem input) = channels_of mem input.
Proof.
  intros Hwf Hon.
  pose proof (on_bus input cb mem b) as Hb. pose proof (on_thunk input cb mem b) as Ht.
  rewrite Hon in Hb, Ht. cbn [fst snd] in Hb, Ht.
  destruct (subscribe_each cb b (channels_of mem input)).2 eqn:Hok; [|done].
  injection Ht as ->. split; [done|]. split; [done|].
  by apply (subscribe_each_ok cb _ b).
Qed.

Lemma on_wf input cb mem b : wf b → wf (on input cb mem b).1.
Proof. rewrite on_bus. apply subscribe_each_wf. Qed.

Lemma on_sep input cb mem b : wf b → _sep (on input cb mem b).1 = _sep b.
Proof. rewrite on_bus. apply subscribe_each_sep. Qed.

Lemma registered_on input cb mem b k :
  wf b →
  registered (on input cb mem b).1 k =
  if decide (k ∈ reached (channels_of mem input))
  then Set_add cb (registered b k) else registered b k.
Proof. rewrite on_bus. apply registered_subscribe_each. Qed.

Lemma unsubscribe_wf t mem b : wf b → wf (unsubscribe t mem b).1.
Proof. apply unsubscribe_each_wf. Qed.


Lemma registered_unsubscribe t mem b k :
  wf b →
  registered (unsubscribe t mem b).1 k =
  if decide (k ∈ reached (channels_of mem (th_channels t)))
  then Set_delete (th_callback t) (registered b k) else registered b k.
Proof. apply registered_unsubscribe_each. Qed.

(** C6, as the code has it: the unsubscribe function returned by
    [on(channels, cb)] reads [channels] when it is called.  Called while
    the array holds what it held at the call of [on] (as it always does
    when a string was given), it returns, deletes [cb] from the set of each
    of those channels and changes the set of no other channel, and a second
    such call changes nothing at all.  Whatever the array holds by then,
    the function deletes [cb] from the channels the array holds at that
    moment, up to the first inherited name, and from no other. *)
Theorem handle_round_trip (input : string + aref) (cb : cbid)
    (mem0 mem : arrays) (b0 b1 b : bus) (h : thunk) :
  wf b0 → on input cb mem0 b0 = (b1, Some h) → wf b →
  let now := channels_of mem input in
  let b' := (unsubscribe h mem b).1 in
  (now = channels_of mem0 input →
     (unsubscribe h mem b).2 = true ∧
     (∀ k, k ∈ channels_of mem0 input →
           registered b' k = Set_delete cb (registered b k) ∧
           cb ∉ registered b' k) ∧
     (∀ k, k ∉ channels_of mem0 input → registered b' k = registered b k) ∧
     unsubscribe h mem b' = (b', true)) ∧
  (∀ k, k ∈ reached now →
        registered b' k = Set_delete cb (registered b k) ∧
        cb ∉ registered b' k) ∧
  (∀ k, k ∉ reached now → registered b' k = registered b k) ∧
  (unsubscribe h mem b').1 = b'.
Proof.
  intros Hwf0 Hon Hwf now b'.
  destruct (on_returned _ _ _ _ _ _ Hwf0 Hon) as (-> & _ & Hall).
  assert (∀ k, k ∈ reached now →
            registered b' k = Set_delete cb (registered b k) ∧
            cb ∉ registered b' k) as H1.
  { intros k Hk. unfold b'. rewrite registered_unsubscribe by done.
    cbn [th_channels th_callback]. fold now. rewrite decide_True by done.
    split; [done|]. rewrite elem_of_Set_delete. tauto. }
  assert (∀ k, k ∉ reached now → registered b' k = registered b k) as H2.
  { intros k Hk. unfold b'. rewrite registered_unsubscribe by done.
    cbn [th_channels]. fold now. by rewrite decide_False. }
  assert ((unsubscribe (Thunk input cb) mem b').1 = b') as H3.
  { apply unsubscribe_each_absent; [by apply unsubscribe_wf|].
    cbn [th_channels th_callback]. intros k Hk. by apply H1. }
  split; [|done]. intros Hnow. rewrite Hnow, Hall in H1, H2.
  assert (∀ b2, wf b2 → (unsubscribe (Thunk input cb) mem b2).2 = true) as Hok.
  { intros b2 Hwf2. apply unsubscribe_each_ok; [done|].
    cbn [th_channels]. fold now. by rewrite Hnow. }
  split; [by apply Hok|]. split; [done|]. split; [done|].
  rewrite <- H3 at 2. rewrite <- (Hok b') by by apply unsubscribe_wf.
  by destruct (unsubscribe (Thunk input cb) mem b').
Qed.

(** ** The expander *)

Lemma expand_base sep c base :
  first_split sep c base → _expandChannelsToListeners sep c = [c; base; "*"].
Proof.
  intros Hfs. unfold _expandChannelsToListeners, indexOf, split1.
  destruct (String.index 0 sep c) as [i|] eqn:Hi.
  - apply index0_Some in Hi as [Hfs' _].
    rewrite (first_split_unique _ _ _ _ Hfs Hfs').
    replace (Z.of_nat i =? -1)%Z with false; [done|].
    symmetry. apply Z.eqb_neq. lia.
  - destruct Hfs as [[r Hr] _]. destruct sep as [|a sep].
    + destruct c; simpl in Hi; [discriminate|].
      by destruct (String.index 0 EmptyString c).
    + exfalso. eapply index0_None; [|exact Hi|]; [done|]. by exists base, r.
Qed.

Lemma expand_plain sep c :
  sep ≠ EmptyString → ¬ occurs sep c → _expandChannelsToListeners sep c = [c; "*"].
Proof.
  intros Hsep Hno. unfold _expandChannelsToListeners, indexOf, split1.
  destruct (String.index 0 sep c) as [i|] eqn:Hi; [|done].
  exfalso. apply Hno. apply index0_Some in Hi as [[[r Hr] _] _]. by eexists _, r.
Qed.

Lemma occurs_first_split sep c : occurs sep c → ∃ base, first_split sep c base.
Proof.
  intros (p & r & Hc).
  destruct (String.index 0 sep c) as [i|] eqn:Hi.
  - apply index0_Some in Hi as [Hfs _]. eauto.
  - destruct sep as [|a sep].
    + destruct c; simpl in Hi; [discriminate|].
      by destruct (String.index 0 EmptyString c).
    + exfalso. eapply index0_None; [|exact Hi|]; [done|]. by exists p, r.
Qed.

(** C1: for a channel that contains the separator the expansion is the
    channel, its prefix up to the first occurrence of the separator, and
    "*"; for a channel that does not, it is the channel and "*"; and what
    follows the first occurrence has no part in the base. *)
Theorem expand_spec (sep c : string) :
  sep ≠ EmptyString →
  (occurs sep c →
     ∃ base, first_split sep c base ∧
             _expandChannelsToListeners sep c = [c; base; "*"]) ∧
  (¬ occurs sep c → _expandChannelsToListeners sep c = [c; "*"]) ∧
  (∀ base rest rest',
     first_split sep (base +:+ sep +:+ rest) base →
     _expandChannelsToListeners sep (base +:+ sep +:+ rest') =
       [base +:+ sep +:+ rest'; base; "*"]).
Proof.
  intros Hsep. split; [|split].
  - intros Hoc. destruct (occurs_first_split _ _ Hoc) as [base Hb].
    exists base. split; [done|]. by apply expand_base.
  - by apply expand_plain.
  - intros base rest rest' Hfs. apply expand_base, first_split_extend.
    destruct Hfs as [_ Hmin]. split; [exists EmptyString; by rewrite append_empty_r|].
    intros p' r' Heq. apply (Hmin p' (r' +:+ rest)).
    rewrite <- !app_assoc_s. rewrite <- app_assoc_s in Heq. by rewrite <- Heq.
Qed.

(** ** The registry holds no empty set *)

Lemma mutate_wf mem b m : wf b → wf (mutate mem b m).
Proof.
  intros Hwf. destruct m as [input cb|t|]; simpl.
  - by apply on_wf.
  - by apply unsubscribe_wf.
  - by apply removeAll_wf.
Qed.

Lemma mutate_all_wf ms b : wf b → wf (mutate_all b ms).
Proof.
  unfold mutate_all. revert b.
  induction ms as [|[mem m] ms IH]; intros b Hwf; simpl; [done|].
  by apply IH, mutate_wf.
Qed.

(** C9: after any sequence of subscriptions, calls of unsubscribe functions
    and [removeAllSubscriptions], whatever the arrays hold at each call and
    whether or not a call raises, every channel the registry has an entry
    for has a callback registered. *)
Theorem registry_never_holds_empty_set (sep : string)
    (ms : list (arrays * mutation)) (channel : string) :
  let b := mutate_all (new_Superbus sep) ms in
  is_Some (_subs b !! channel) → registered b channel ≠ [].
Proof.
  intros b [l Hl]. unfold registered. rewrite Hl.
  eapply (wf_nonempty b); [apply mutate_all_wf, wf_new | done].
Qed.

(** ** Dispatch *)

Section DispatchProps.

Context {Data : Type}.
Variable behave : list (call Data) → cbid → string → Data → outcome.

Lemma promises_of_app (l1 l2 : list (call Data)) :
  promises_of (l1 ++ l2) = promises_of l1 ++ promises_of l2.
Proof. apply omap_app. Qed.

Lemma call_all_spec cbs c d log ps :
  ∃ new, (call_all behave cbs c d log ps).1 = log ++ new ∧
    match (call_all behave cbs c d log ps).2 with
    | Some ps' =>
        sig_of <$> new = (λ cb, (cb, c, d)) <$> cbs ∧
        ps' = ps ++ promises_of new ∧
        Forall (λ x, ¬ raised x) new
    | None =>
        ∃ called x, new = called ++ [x] ∧ raised x ∧
          Forall (λ x, ¬ raised x) called ∧
          (sig_of <$> new) `prefix_of` ((λ cb, (cb, c, d)) <$> cbs)
    end.
Proof.
  revert log ps. induction cbs as [|cb cbs IH]; intros log ps; simpl.
  - exists []. rewrite !app_nil_r. by repeat split.
  - destruct (behave log cb c d) as [| |p] eqn:Hb.
    + destruct (IH (log ++ [Call cb c d Returned]) ps) as [new [Hlog Hres]].
      exists (Call cb c d Returned :: new). split.
      { rewrite Hlog. by rewrite <- app_assoc. }
      destruct (call_all behave cbs c d _ ps).2 as [ps'|].
      * destruct Hres as (Hsig & -> & Hnr). repeat split.
        -- rewrite !fmap_cons. by f_equal.
        -- constructor; [done|done].
      * destruct Hres as (called & x & -> & Hx & Hnr & Hpre).
        exists (Call cb c d Returned :: called), x. repeat split; try done.
        -- constructor; done.
        -- rewrite !fmap_cons. by apply prefix_cons.
    + exists [Call cb c d Raised]. simpl. split; [done|].
      exists [], (Call cb c d Raised). repeat split; try done.
      apply prefix_cons, prefix_nil.
    + destruct (IH (log ++ [Call cb c d (Deferred p)]) (ps ++ [p])) as [new [Hlog Hres]].
      exists (Call cb c d (Deferred p) :: new). split.
      { rewrite Hlog. by rewrite <- app_assoc. }
      destruct (call_all behave cbs c d _ (ps ++ [p])).2 as [ps'|].
      * destruct Hres as (Hsig & -> & Hnr). repeat split.
        -- rewrite !fmap_cons. by f_equal.
        -- unfold promises_of at 2. simpl. by rewrite <- app_assoc.
        -- constructor; [done|done].
      * destruct Hres as (called & x & -> & Hx & Hnr & Hpre).
        exists (Call cb c d (Deferred p) :: called), x. repeat split; try done.
        -- constructor; done.
        -- rewrite !fmap_cons. by apply prefix_cons.
Qed.

Lemma levels_cons b c d listener rest log :
  levels behave b c d (listener :: rest) log =
  match subs_at b listener with
  | Some Not_a_Set => (log, Rejected)
  | _ =>
      match registered b listener with
      | [] => levels behave b c d rest log
      | cbs =>
          match call_all behave cbs c d log [] with
          | (log', Some proms) => (log', Awaiting c d proms rest)
          | (log', None) => (log', Rejected)
          end
      end
  end.
Proof.
  simpl. rewrite registered_subs_at.
  destruct (subs_at b listener) as [[l|]|]; simpl; try done.
  unfold Set_size. by destruct (deref b l).
Qed.

(** At a listener the registry has a Set for, or nothing. *)
Lemma levels_cons_set b c d listener rest log :
  subs_at b listener ≠ Some Not_a_Set →
  levels behave b c d (listener :: rest) log =
  match registered b listener with
  | [] => levels behave b c d rest log
  | cbs =>
      match call_all behave cbs c d log [] with
      | (log', Some proms) => (log', Awaiting c d proms rest)
      | (log', None) => (log', Rejected)
      end
  end.
Proof.
  intros Hs. rewrite levels_cons. by destruct (subs_at b listener) as [[l|]|].
Qed.

(** At a listener that is an inherited name. *)
Lemma levels_cons_inherited b c d listener rest log :
  subs_at b listener = Some Not_a_Set →
  levels behave b c d (listener :: rest) log = (log, Rejected).
Proof. intros Hs. by rewrite levels_cons, Hs. Qed.

Lemma registered_inherited b l :
  subs_at b l = Some Not_a_Set → registered b l = [].
Proof. intros Hs. by rewrite registered_subs_at, Hs. Qed.

Lemma plan_cons b c (d : Data) l ls :
  plan b c d (l :: ls) = level_plan b c d l ++ plan b c d ls.
Proof. reflexivity. Qed.

Lemma plan_app b c (d : Data) ls1 ls2 :
  plan b c d (ls1 ++ ls2) = plan b c d ls1 ++ plan b c d ls2.
Proof. apply bind_app. Qed.

Lemma levels_spec b c d ls log :
  ∃ new, (levels behave b c d ls log).1 = log ++ new ∧
    match (levels behave b c d ls log).2 with
    | Awaiting c' d' ps rest =>
        c' = c ∧ d' = d ∧
        (∃ visited, ls = visited ++ rest ∧ sig_of <$> new = plan b c d visited) ∧
        ps = promises_of new ∧ Forall (λ x, ¬ raised x) new
    | Resolved => plan b c d ls = [] ∧ new = []
    | Rejected =>
        (sig_of <$> new) `prefix_of` plan b c d ls ∧
        ((∃ called x, new = called ++ [x] ∧ raised x ∧
                      Forall (λ x, ¬ raised x) called) ∨
         new = [])
    end.
Proof.
  induction ls as [|l ls IH].
  - exists []. simpl. by rewrite app_nil_r.
  - destruct (decide (subs_at b l = Some Not_a_Set)) as [Hs|Hs].
    { rewrite levels_cons_inherited by done. exists []. cbn [fst snd].
      rewrite app_nil_r. split; [done|]. split; [apply prefix_nil | by right]. }
    rewrite levels_cons_set, plan_cons by done. unfold level_plan.
    destruct (registered b l) as [|cb cbs] eqn:Hreg.
    + destruct IH as [new [Hlog Hres]]. exists new. split; [done|].
      destruct (levels behave b c d ls log).2 as [c' d' ps rest| |]; [|done|done].
      destruct Hres as (-> & -> & (visited & -> & Hsig) & -> & Hnr).
      repeat split; try done. exists (l :: visited). split; [done|].
      rewrite plan_cons. unfold level_plan. by rewrite Hreg.
    + destruct (call_all_spec (cb :: cbs) c d log []) as [new [Hlog Hres]].
      destruct (call_all behave (cb :: cbs) c d log []) as [log' [ps|]];
        cbn [fst snd] in *; exists new; (split; [done|]).
      * destruct Hres as (Hsig & -> & Hnr). repeat split; try done.
        exists [l]. split; [done|].
        rewrite plan_cons. unfold level_plan. rewrite Hreg.
        change (plan b c d []) with (@nil (cbid * string * Data)).
        by rewrite app_nil_r.
      * destruct Hres as (called & x & -> & Hx & Hnr & Hpre).
        split; [by apply prefix_app_r|]. left. by exists called, x.
Qed.

Lemma promise_all_fulfilled store ps :
  promise_all store ps = Fulfilled ↔ ∀ p, p ∈ ps → store !! p = Some true.
Proof.
  unfold promise_all.
  destruct (existsb _ ps) eqn:He.
  - split; [done|]. intros Hall. apply existsb_exists in He as (p & Hp & Hf).
    apply list_elem_of_In, Hall in Hp. unfold pstate_of in Hf. by rewrite Hp in Hf.
  - destruct (forallb _ ps) eqn:Hf.
    + split; [|done]. intros _ p Hp. rewrite forallb_forall in Hf.
      apply list_elem_of_In, Hf in Hp. unfold pstate_of in Hp.
      by destruct (store !! p) as [[]|].
    + split; [done|]. intros Hall.
      assert (forallb (λ p, is_fulfilled (pstate_of store p)) ps = true); [|congruence].
      apply forallb_forall. intros p Hp. apply list_elem_of_In, Hall in Hp.
      unfold pstate_of. by rewrite Hp.
Qed.

Lemma promise_all_failed store ps :
  promise_all store ps = Failed ↔ ∃ p, p ∈ ps ∧ store !! p = Some false.
Proof.
  unfold promise_all.
  destruct (existsb _ ps) eqn:He.
  - split; [|done]. intros _. apply existsb_exists in He as (p & Hp & Hf).
    exists p. split; [by apply list_elem_of_In|]. unfold pstate_of in Hf.
    by destruct (store !! p) as [[]|].
  - assert (¬ ∃ p, p ∈ ps ∧ store !! p = Some false) as Hno.
    { intros (p & Hp & Hf).
      assert (existsb (λ p, is_failed (pstate_of store p)) ps = true); [|congruence].
      apply existsb_exists. exists p. split; [by apply list_elem_of_In|].
      unfold pstate_of. by rewrite Hf. }
    destruct (forallb _ ps); split; done.
Qed.

Lemma settle_fulfilled p ok store q :
  store !! q = Some true → settle p ok store !! q = Some true.
Proof.
  intros Hq. unfold settle. destruct (store !! p) eqn:Hp; [done|].
  rewrite lookup_insert_ne; [done|]. intros ->. congruence.
Qed.

Lemma settle_failed p ok store q :
  store !! q = Some false → settle p ok store !! q = Some false.
Proof.
  intros Hq. unfold settle. destruct (store !! p) eqn:Hp; [done|].
  rewrite lookup_insert_ne; [done|]. intros ->. congruence.
Qed.

Lemma raised_last (called : list (call Data)) x log i y :
  Forall (λ x, ¬ raised x) log → Forall (λ x, ¬ raised x) called →
  (log ++ called ++ [x]) !! i = Some y → raised y →
  S i = length (log ++ called ++ [x]).
Proof.
  intros Hlog Hcalled Hi Hy. rewrite app_assoc in *.
  rewrite length_app. simpl.
  apply lookup_app_Some in Hi as [Hi | [Hge Hi]].
  - exfalso. apply list_elem_of_lookup_2 in Hi.
    apply elem_of_app in Hi as [Hi|Hi].
    + by eapply Forall_forall in Hlog.
    + by eapply Forall_forall in Hcalled.
  - apply list_lookup_singleton_Some in Hi as [Hi _]. lia.
Qed.

Lemma plan_channel b c (d : Data) ls (y : cbid * string * Data) :
  y ∈ plan b c d ls → y.1.2 = c ∧ y.2 = d.
Proof.
  unfold plan. rewrite list_elem_of_bind. intros (l & Hy & _).
  unfold level_plan in Hy. by apply list_elem_of_fmap in Hy as (cb & -> & _).
Qed.

Lemma calls_channel b c (d : Data) ls (new : list (call Data)) :
  (sig_of <$> new) `prefix_of` plan b c d ls →
  Forall (λ x, c_channel x = c ∧ c_data x = d) new.
Proof.
  intros [k Hk]. apply Forall_forall. intros x Hx.
  apply (plan_channel b c d ls (sig_of x)). rewrite Hk.
  apply elem_of_app. left. apply list_elem_of_fmap. eauto.
Qed.

(** The coroutine's turn keeps what holds of a publish at every moment. *)
Lemma safe_levels b0 b c d rest log store :
  Forall (λ x, c_channel x = c ∧ c_data x = d) log →
  Forall (λ x, ¬ raised x) log →
  (∀ p, p ∈ promises_of log → store !! p = Some true) →
  publish_safe c d (RunState b0 (levels behave b c d rest log).1 store
                             (levels behave b c d rest log).2).
Proof.
  intros Hch Hnr Hps.
  destruct (levels_spec b c d rest log) as [new [Hlog Hres]].
  unfold publish_safe; cbn [r_log r_act r_store]. rewrite Hlog.
  destruct (levels behave b c d rest log).2 as [c' d' ps rest'| |].
  - destruct Hres as (-> & -> & (vis' & -> & Hsig') & -> & Hnr').
    split; [|repeat split].
    + apply Forall_app. split; [done|].
      apply (calls_channel b c d vis'). by rewrite Hsig'.
    + by apply Forall_app.
    + intros p. rewrite promises_of_app, elem_of_app. intros [?|?]; eauto.
  - destruct Hres as (_ & ->). rewrite !app_nil_r. by repeat split.
  - destruct Hres as (Hpre & Hlast). split.
    + apply Forall_app. split; [done|]. by apply (calls_channel b c d rest).
    + destruct Hlast as [(called & x & -> & Hx & Hnr')| ->].
      * intros i y. by apply raised_last.
      * rewrite app_nil_r. intros i y Hi Hy.
        apply list_elem_of_lookup_2 in Hi. by eapply Forall_forall in Hnr.
Qed.

Lemma inv_levels b c d visited rest log store :
  _expandChannelsToListeners (_sep b) c = visited ++ rest →
  sig_of <$> log = plan b c d visited →
  publish_inv b c d (RunState b (levels behave b c d rest log).1 store
                              (levels behave b c d rest log).2).
Proof.
  intros Hexp Hsig.
  destruct (levels_spec b c d rest log) as [new [Hlog Hres]].
  unfold publish_inv; cbn [r_bus r_log r_act r_store].
  rewrite Hlog, Hexp, plan_app, fmap_app, Hsig. split; [done|].
  destruct (levels behave b c d rest log).2 as [c' d' ps rest'| |].
  - destruct Hres as (_ & _ & (vis' & -> & Hsig') & _).
    rewrite Hsig'. split.
    + rewrite plan_app. apply prefix_app, prefix_app_r. done.
    + exists (visited ++ vis'). by rewrite app_assoc, plan_app.
  - destruct Hres as (Hnil & ->). rewrite Hnil, !app_nil_r. by split.
  - destruct Hres as (Hpre & _). split; [|done].
    by apply prefix_app.
Qed.

Lemma safe_step c d s t :
  publish_safe c d s → publish_safe c d (step behave s t).
Proof.
  destruct s as [b log store a]. destruct t as [p ok| |mem m]; [| |done].
  - unfold publish_safe; cbn [step r_log r_act r_store]. intros [Hch Ha].
    split; [done|]. destruct a as [c' d' ps rest| |]; [| |done].
    + destruct Ha as (? & ? & ? & Hps). repeat split; try done.
      intros q Hq. destruct (Hps q Hq); eauto using settle_fulfilled.
    + destruct Ha as (? & Hps). split; [done|].
      intros q Hq. eauto using settle_fulfilled.
  - destruct a as [c' d' ps rest| |]; [| done | done].
    intros [Hch (-> & -> & Hnr & Hps)]. cbn [r_log r_act r_store] in *.
    cbn [step resume r_bus r_log r_act r_store].
    destruct (promise_all store ps) eqn:Hall.
    + unfold publish_safe; cbn [r_log r_act r_store]. by repeat split.
    + pose proof (proj1 (promise_all_fulfilled _ _) Hall) as Hful.
      destruct (levels behave b c d rest log) as [log' a'] eqn:Hlv.
      change log' with (log', a').1. change a' with (log', a').2 at 2.
      rewrite <- Hlv. apply safe_levels; [done | done |].
      intros p Hp. destruct (Hps p Hp); eauto.
    + unfold publish_safe; cbn [r_log r_act r_store]. split; [done|].
      intros i x Hi Hx.
      apply list_elem_of_lookup_2 in Hi. by eapply Forall_forall in Hnr.
Qed.

Lemma inv_step b c d s t :
  publish_safe c d s → publish_inv b c d s → is_client t = false →
  publish_inv b c d (step behave s t).
Proof.
  destruct s as [b0 log store a]. intros Hsafe (Hb & Hpre & Ha) Ht.
  cbn [r_bus] in Hb. subst b0. destruct t as [p ok| |mem m]; [done| |done].
  destruct a as [c' d' ps rest| |]; [| done | done].
  destruct Hsafe as [_ (-> & -> & _)]. destruct Ha as (visited & Hexp & Hsig).
  cbn [r_log r_act r_store] in *.
  cbn [step resume r_bus r_log r_act r_store].
  destruct (promise_all store ps) eqn:Hall.
  - unfold publish_inv; cbn [r_bus r_log r_act r_store]. eauto.
  - destruct (levels behave b c d rest log) as [log' a'] eqn:Hlv.
    change log' with (log', a').1. change a' with (log', a').2 at 2.
    rewrite <- Hlv. by eapply inv_levels.
  - unfold publish_inv; cbn [r_bus r_log r_act r_store]. by repeat split.
Qed.

Lemma run_cons t sched (s : run_state Data) :
  run behave (t :: sched) s = run behave sched (step behave s t).
Proof. reflexivity. Qed.

Lemma safe_run c d sched s :
  publish_safe c d s → publish_safe c d (run behave sched s).
Proof.
  revert s. induction sched as [|t sched IH]; intros s Hs; [done|].
  rewrite run_cons. by apply IH, safe_step.
Qed.

Lemma undisturbed_cons t sched :
  undisturbed (t :: sched) ↔ is_client t = false ∧ undisturbed sched.
Proof.
  unfold undisturbed. cbn [forallb]. rewrite andb_true_iff, negb_true_iff.
  done.
Qed.

Lemma inv_run b c d sched s :
  undisturbed sched → publish_safe c d s → publish_inv b c d s →
  publish_inv b c d (run behave sched s).
Proof.
  revert s. induction sched as [|t sched IH]; intros s Hq Hsafe Hinv; [done|].
  apply undisturbed_cons in Hq as [Ht Hq]. rewrite run_cons.
  apply IH; [done | by apply safe_step | by apply inv_step].
Qed.

Lemma safe_publish b c d store sched :
  publish_safe c d (publish_and_wait behave b c d store sched).
Proof.
  unfold publish_and_wait, sendAndWait.
  pose proof (safe_levels b b c d (_expandChannelsToListeners (_sep b) c) []
                store) as H.
  destruct (levels behave b c d _ []) as [log a]. apply safe_run, H; [done|done|].
  intros p Hp. by apply elem_of_nil in Hp.
Qed.

Lemma inv_publish b c d store sched :
  undisturbed sched →
  publish_inv b c d (publish_and_wait behave b c d store sched).
Proof.
  intros Hq. unfold publish_and_wait, sendAndWait.
  pose proof (safe_levels b b c d (_expandChannelsToListeners (_sep b) c) []
                store) as Hs.
  pose proof (inv_levels b c d [] (_expandChannelsToListeners (_sep b) c) []
                store eq_refl eq_refl) as Hi.
  destruct (levels behave b c d _ []) as [log a].
  apply inv_run; [done| |done]. apply Hs; [done|done|].
  intros p Hp. by apply elem_of_nil in Hp.
Qed.

Lemma step_rejected (s : run_state Data) t :
  r_act s = Rejected →
  r_act (step behave s t) = Rejected ∧ r_log (step behave s t) = r_log s.
Proof. destruct s as [b log store a]. simpl. intros ->. by destruct t. Qed.

(** A rejected publish stays rejected and makes no call. *)
Lemma run_rejected sched (s : run_state Data) :
  r_act s = Rejected →
  r_act (run behave sched s) = Rejected ∧ r_log (run behave sched s) = r_log s.
Proof.
  revert s. induction sched as [|t sched IH]; intros s Hs; [done|].
  rewrite run_cons. destruct (step_rejected s t Hs) as [Ha Hl].
  destruct (IH _ Ha) as [? ?]. split; congruence.
Qed.

Lemma call_all_never_raises cbs c d log ps :
  (∀ log cb c d, behave log cb c d ≠ Raised) →
  is_Some (call_all behave cbs c d log ps).2.
Proof.
  intros Hnr. revert log ps. induction cbs as [|cb cbs IH]; intros log ps; simpl; [by eexists|].
  specialize (Hnr log cb c d). destruct (behave log cb c d); [apply IH | done | apply IH].
Qed.

Lemma expand_head sep c :
  ∃ rest, _expandChannelsToListeners sep c = c :: rest.
Proof.
  unfold _expandChannelsToListeners.
  destruct (negb _); [destruct (split1 c sep)|]; by eexists.
Qed.

(** A publish on a channel calls, before its first [await], the callbacks
    registered under that very channel. *)
Lemma sendAndWait_calls_registered b c d log cb :
  (∀ log cb c d, behave log cb c d ≠ Raised) →
  cb ∈ registered b c →
  ∃ x, x ∈ (sendAndWait behave b c d log).1 ∧ sig_of x = (cb, c, d).
Proof.
  intros Hnr Hcb. unfold sendAndWait.
  destruct (expand_head (_sep b) c) as [rest ->].
  rewrite levels_cons_set.
  2:{ intros Hs. rewrite (registered_inherited _ _ Hs) in Hcb.
      by apply elem_of_nil in Hcb. }
  destruct (registered b c) as [|cb0 cbs] eqn:Hreg; [by apply elem_of_nil in Hcb|].
  destruct (call_all_spec (cb0 :: cbs) c d log []) as [new [Hlog Hres]].
  destruct (call_all_never_raises (cb0 :: cbs) c d log [] Hnr) as [ps Hps].
  rewrite Hps in Hres. destruct Hres as (Hsig & _ & _).
  destruct (call_all behave (cb0 :: cbs) c d log []) as [log' r].
  cbn [fst snd] in *. subst r log'.
  assert ((cb, c, d) ∈ sig_of <$> new) as Hin.
  { rewrite Hsig. apply list_elem_of_fmap. by exists cb. }
  apply list_elem_of_fmap in Hin as (x & Hx & Hin).
  exists x. split; [|done]. apply elem_of_app. by right.
Qed.

End DispatchProps.

Section Publish.

Context {Data : Type}.
Variable behave : list (call Data) → cbid → string → Data → outcome.

(** A resolved publish, with the registry left alone meanwhile, has made
    all the calls of the plan. *)
Lemma publish_resolved b c d store sched :
  undisturbed sched →
  r_act (publish_and_wait behave b c d store sched) = Resolved →
  sig_of <$> r_log (publish_and_wait behave b c d store sched) =
  plan b c d (_expandChannelsToListeners (_sep b) c).
Proof.
  intros Hq Hres.
  destruct (inv_publish behave b c d store sched Hq) as (_ & _ & Ha).
  by rewrite Hres in Ha.
Qed.

(** C2: in a publish by [sendAndWait], whatever happens around it, a turn
    of the coroutine makes a call only when every Promise returned by the
    calls made before is fulfilled, and when the publish is resolved every
    Promise its calls returned is fulfilled.  When no other code changes
    the registry meanwhile, the calls follow the expansion level by level,
    and within a level the order in which the set enumerates its members
    (the calls made are a prefix of the plan); between two turns they are
    those of whole levels; and when the publish is resolved every callback
    of every level has been called. *)
Theorem sendAndWait_level_barrier (b : bus) (c : string) (d : Data)
    (store : gmap pid bool) (sched : list tick) :
  let listeners := _expandChannelsToListeners (_sep b) c in
  let s := publish_and_wait behave b c d store sched in
  (r_log (step behave s Wake) ≠ r_log s →
     ∀ p, p ∈ promises_of (r_log s) → r_store s !! p = Some true) ∧
  (r_act s = Resolved →
     ∀ p, p ∈ promises_of (r_log s) → r_store s !! p = Some true) ∧
  (undisturbed sched →
     (sig_of <$> r_log s) `prefix_of` plan b c d listeners ∧
     (r_act s ≠ Rejected →
        ∃ visited rest, listeners = visited ++ rest ∧
                        sig_of <$> r_log s = plan b c d visited) ∧
     (r_act s = Resolved → sig_of <$> r_log s = plan b c d listeners)).
Proof.
  intros listeners s.
  pose proof (safe_publish behave b c d store sched) as Hsafe.
  assert (undisturbed sched → publish_inv b c d s) as Hinv
    by apply inv_publish.
  fold s in Hsafe. clearbody s. split; [|split].
  - destruct s as [b' log st a]. destruct Hsafe as [_ Ha].
    simpl in *. destruct a as [c' d' ps rest| |]; simpl; [|done|done].
    destruct Ha as (_ & _ & _ & Hps).
    destruct (promise_all st ps) eqn:Hall; simpl; [done| |done].
    intros _ p Hp. pose proof (proj1 (promise_all_fulfilled _ _) Hall) as Hful.
    destruct (Hps p Hp); eauto.
  - intros Hres. destruct Hsafe as [_ Ha]. rewrite Hres in Ha. apply Ha.
  - intros Hq. destruct (Hinv Hq) as (_ & Hpre & Ha). fold listeners in Hpre, Ha.
    split; [done|]. split.
    + intros Hrej. destruct (r_act s) as [c' d' ps rest| |]; [| |done].
      * destruct Ha as (visited & Hv & Hsig). eauto.
      * exists listeners, []. rewrite app_nil_r. by split.
    + intros Hres. by rewrite Hres in Ha.
Qed.

Lemma later_levels_spec b c (d : Data) ls q :
  later_levels b c d ls q = q ++ omap (unit_for b c d) ls.
Proof.
  revert q. induction ls as [|l ls IH]; intros q.
  - simpl. by rewrite app_nil_r.
  - change (omap (unit_for b c d) (l :: ls)) with
      (match unit_for b c d l with
       | Some y => y :: omap (unit_for b c d) ls
       | None => omap (unit_for b c d) ls
       end).
    cbn [later_levels]. unfold unit_for at 1.
    destruct (subs_at b l) as [[loc|]|]; [| |apply IH].
    + unfold size_is_0, Set_size.
      destruct (deref b loc); cbn [length Nat.eqb]; [apply IH|].
      rewrite IH. by rewrite <- app_assoc.
    + cbn [size_is_0]. rewrite IH. by rewrite <- app_assoc.
Qed.

Lemma run_task_calls b (t : task Data) log x :
  x ∈ (run_task behave b t log).1 →
  x ∈ log ∨ (c_channel x = t_channel t ∧ c_data x = t_data t).
Proof.
  unfold run_task, call_each. destruct (t_cbs t) as [l|]; [|by left].
  destruct (call_all_spec behave (deref b l) (t_channel t) (t_data t) log [])
    as [new [Hlog Hres]].
  destruct (call_all behave _ _ _ log []) as [log' r]. cbn [fst snd] in *. subst log'.
  assert (∀ y, y ∈ sig_of <$> new → y.1.2 = t_channel t ∧ y.2 = t_data t) as Hsig.
  { assert ((sig_of <$> new) `prefix_of`
            ((λ cb, (cb, t_channel t, t_data t)) <$> deref b l)) as [k Hk].
    { destruct r; [destruct Hres as (-> & _) | destruct Hres as (? & ? & _ & _ & _ & ?)]; done. }
    intros y Hy. assert (y ∈ (λ cb, (cb, t_channel t, t_data t)) <$> deref b l) as Hin.
    { rewrite Hk. apply elem_of_app. by left. }
    apply list_elem_of_fmap in Hin as (cb & -> & _). done. }
  assert (∀ y, y ∈ new → c_channel y = t_channel t ∧ c_data y = t_data t) as Hnew.
  { intros y Hy. apply (Hsig (sig_of y)). apply list_elem_of_fmap. eauto. }
  destruct r; cbn [fst]; rewrite elem_of_app; intros [?|?]; eauto.
Qed.

Lemma drain_queue_calls b (q : list (task Data)) log x :
  x ∈ drain_queue behave b q log →
  x ∈ log ∨ ∃ t, t ∈ q ∧ c_channel x = t_channel t ∧ c_data x = t_data t.
Proof.
  revert log. induction q as [|t q IH]; intros log; simpl; [by left|].
  pose proof (run_task_calls b t log x) as Ht.
  destruct (run_task behave b t log) as [log' [|]]; cbn [fst] in Ht.
  - intros Hx. destruct (IH _ Hx) as [Hx'|(t' & Ht' & H')].
    + destruct (Ht Hx'); [by left|]. right. exists t. split; [left|done].
    + right. exists t'. split; [by right|done].
  - intros Hx. destruct (Ht Hx); [by left|]. right. exists t. split; [left|done].
Qed.

Lemma units_channel b c (d : Data) t :
  t ∈ units b c d → t_channel t = c ∧ t_data t = d.
Proof.
  unfold units. rewrite list_elem_of_omap. intros (l & _ & Hl).
  unfold unit_for in Hl. destruct (subs_at b l) as [[r|]|]; [| |done].
  - destruct (deref b _); [done|]. by injection Hl as <-.
  - by injection Hl as <-.
Qed.

(** C3: every call made for a publish of [c], by [sendAndWait] whatever
    happens around it, or by the closures [sendLater] queued whatever the
    bus has become when they run, passes the channel [c] itself (and the
    payload) to the callback, whichever entry the callback is registered
    under. *)
Theorem callbacks_receive_original_channel (b : bus) (c : string) (d : Data) :
  (∀ store sched x,
     x ∈ r_log (publish_and_wait behave b c d store sched) →
     c_channel x = c ∧ c_data x = d) ∧
  (∀ b' log x,
     x ∈ w_log (drain behave (World b' (w_queue (sendLater c d (World b [] log))) log)) →
     x ∈ log ∨ (c_channel x = c ∧ c_data x = d)).
Proof.
  split.
  - intros store sched x Hx.
    destruct (safe_publish behave b c d store sched) as [Hch _].
    by eapply Forall_forall in Hch.
  - intros b' log x. unfold drain, sendLater; simpl.
    rewrite later_levels_spec. simpl. intros Hx.
    apply drain_queue_calls in Hx as [?|(t & Ht & -> & ->)]; [by left|].
    right. by apply units_channel in Ht.
Qed.


(** Which closure [sendLater] queues for a listener. *)
Lemma unit_for_cases b c (d : Data) l :
  match unit_for b c d l with
  | Some t =>
      t_channel t = c ∧ t_data t = d ∧ subs_at b l = Some (t_cbs t) ∧
      (registered b l ≠ [] ∨ t_cbs t = Not_a_Set)
  | None => registered b l = [] ∧ subs_at b l ≠ Some Not_a_Set
  end.
Proof.
  rewrite registered_subs_at. unfold unit_for.
  destruct (subs_at b l) as [[r|]|]; cbn [members].
  - destruct (deref b r) eqn:Hd; [done|]. cbn [t_channel t_data t_cbs].
    split; [done|]. split; [done|]. split; [done|]. by left.
  - cbn [t_channel t_data t_cbs]. split; [done|]. split; [done|]. split; [done|]. by right.
  - done.
Qed.


End Publish.

(** ** The wildcard channel, published on *)

Lemma not_occurs_star sep : sep ≠ EmptyString → sep ≠ "*" → ¬ occurs sep "*".
Proof.
  intros Hne Hstar (p & r & Heq).
  destruct p as [|x p]; unapp.
  - destruct sep as [|a sep]; [done|]. unapp. injection Heq as <- Heq.
    destruct sep; [done|]. by unapp.
  - injection Heq as <- Heq. destruct p; unapp; [|done].
    destruct sep; [done|]. by unapp.
Qed.

Lemma expand_star sep :
  sep ≠ EmptyString →
  _expandChannelsToListeners sep "*" =
  if decide (sep = "*") then ["*"; EmptyString; "*"] else ["*"; "*"].
Proof.
  intros Hne. case_decide as Hs; [by subst sep|].
  apply expand_plain; [done|]. by apply not_occurs_star.
Qed.

(** ** Removal, failure and completion *)

Section Outcomes.

Context {Data : Type}.
Variable behave : list (call Data) → cbid → string → Data → outcome.

Lemma drain_queue_silent b (q : list (task Data)) log :
  (∀ t, t ∈ q → members b (t_cbs t) = []) → drain_queue behave b q log = log.
Proof.
  induction q as [|t q IH]; intros Hq; simpl; [done|].
  pose proof (Hq t (list_elem_of_here _ _)) as Ht.
  unfold run_task, call_each. destruct (t_cbs t) as [l|]; [|done].
  cbn [members] in Ht. rewrite Ht. simpl.
  apply IH. intros t' Ht'. apply Hq. by right.
Qed.

(** C5, as the code has it: a closure queued by [sendLater] stays queued
    through [removeAllSubscriptions] and enumerates, when it runs, the Set
    object it captured; [removeAllSubscriptions] has cleared that object, so
    draining the queue calls no callback. *)
Theorem removeAll_silences_queued_units (c : string) (d : Data) (w : world Data) :
  wf (w_bus w) →
  let w1 := sendLater c d w in
  let w2 := w_removeAllSubscriptions w1 in
  w_queue w2 = w_queue w ++ units (w_bus w) c d ∧
  (∀ t, t ∈ w_queue w2 → members (w_bus w2) (t_cbs t) = []) ∧
  w_log (drain behave w2) = w_log w.
Proof.
  intros Hwf w1 w2.
  assert (∀ t : task Data, members (w_bus w2) (t_cbs t) = []) as Hempty.
  { intros t. destruct (t_cbs t); [by apply removeAll_deref|done]. }
  split; [|split].
  - unfold w2, w1, sendLater; simpl. apply later_levels_spec.
  - intros t _. apply Hempty.
  - unfold drain. simpl. apply drain_queue_silent.
    intros t _. apply Hempty.
Qed.

(** A turn of the coroutine after one of the awaited Promises has been
    rejected rejects the publish. *)
Lemma failed_promise_rejects c d (s : run_state Data) p :
  publish_safe c d s → p ∈ promises_of (r_log s) →
  r_store s !! p = Some false →
  r_act (step behave s Wake) = Rejected ∧
  r_log (step behave s Wake) = r_log s.
Proof.
  destruct s as [b log st a]. intros [_ Ha] Hin Hp. simpl in *.
  destruct a as [c' d' ps rest| |]; simpl; [| |done].
  - destruct Ha as (_ & _ & _ & Hps).
    destruct (Hps p Hin) as [Hps'|]; [|congruence].
    assert (promise_all st ps = Failed) as ->; [|done].
    apply promise_all_failed. eauto.
  - destruct Ha as (_ & Hps). apply Hps in Hin. congruence.
Qed.

Lemma failed_promise_final c d p before sched' (s : run_state Data) :
  publish_safe c d s → p ∈ promises_of (r_log s) →
  r_store s !! p = Some false →
  r_act (run behave (before ++ Wake :: sched') s) = Rejected ∧
  r_log (run behave (before ++ Wake :: sched') s) = r_log s.
Proof.
  revert s. induction before as [|t before IH]; intros s Hsafe Hin Hp.
  - rewrite app_nil_l, run_cons.
    destruct (failed_promise_rejects c d s p Hsafe Hin Hp) as [Ha Hl].
    destruct (run_rejected behave sched' _ Ha) as [? ?]. split; congruence.
  - rewrite <- app_comm_cons, run_cons.
    destruct t as [q ok| |mem m].
    + assert (r_log (step behave s (Settle q ok)) = r_log s) as Hlog by done.
      rewrite <- Hlog. apply IH.
      * by apply safe_step.
      * by rewrite Hlog.
      * by apply settle_failed.
    + destruct (failed_promise_rejects c d s p Hsafe Hin Hp) as [Ha Hl].
      destruct (run_rejected behave (before ++ Wake :: sched') _ Ha) as [? ?].
      split; congruence.
    + assert (r_log (step behave s (Client mem m)) = r_log s) as Hlog by done.
      rewrite <- Hlog.
      apply IH; [by apply (safe_step behave c d s (Client mem m)) | done | done].
Qed.

(** C8: in a publish by [sendAndWait], whatever happens around it, a call
    that raises is the last call ever made and the publish is rejected;
    once a Promise returned by one of its calls is rejected, the next turn
    of the coroutine rejects the publish, whatever the state of the other
    Promises, and no call is made any more; a rejected publish stays
    rejected and makes no call. *)
Theorem sendAndWait_failure (b : bus) (c : string) (d : Data)
    (store : gmap pid bool) (sched : list tick) :
  let s := publish_and_wait behave b c d store sched in
  (∀ i x, r_log s !! i = Some x → raised x →
     S i = length (r_log s) ∧ r_act s = Rejected) ∧
  (∀ x p, x ∈ r_log s → c_result x = Deferred p → r_store s !! p = Some false →
     ∀ before sched',
       let s' := run behave (before ++ Wake :: sched') s in
       r_act s' = Rejected ∧ r_log s' = r_log s) ∧
  (r_act s = Rejected →
     ∀ sched', let s' := run behave sched' s in
               r_act s' = Rejected ∧ r_log s' = r_log s).
Proof.
  intros s. pose proof (safe_publish behave b c d store sched) as Hsafe.
  fold s in Hsafe. clearbody s. split; [|split].
  - destruct s as [b' log st a]. destruct Hsafe as [_ Ha]. simpl in *.
    intros i x Hi Hx. destruct a as [c' d' ps rest| |].
    + destruct Ha as (_ & _ & Hnr & _).
      apply list_elem_of_lookup_2 in Hi. by eapply Forall_forall in Hnr.
    + destruct Ha as (Hnr & _).
      apply list_elem_of_lookup_2 in Hi. by eapply Forall_forall in Hnr.
    + split; [|done]. by eapply Ha.
  - intros x p Hx Hres Hp before sched'. cbv zeta.
    apply (failed_promise_final c d p); [done| |done].
    unfold promises_of. apply list_elem_of_omap. exists x. split; [done|].
    unfold promise_of. by rewrite Hres.
  - intros Hrej sched'. by apply run_rejected.
Qed.

(** C10: the expansion of "*" holds "*" twice (with the empty base in between
    when the separator is "*" itself), and so does the expansion of a
    channel whose base is "*"; a resolved publish on such a channel, with
    the registry left alone meanwhile, has called the callbacks registered
    under "*" twice over. *)
Theorem wildcard_publish_delivers_twice (b : bus) (d : Data)
    (store : gmap pid bool) (sched : list tick) :
  _sep b ≠ EmptyString →
  _expandChannelsToListeners (_sep b) "*" =
    (if decide (_sep b = "*") then ["*"; EmptyString; "*"] else ["*"; "*"]) ∧
  (∀ c, first_split (_sep b) c "*" →
        _expandChannelsToListeners (_sep b) c = [c; "*"; "*"]) ∧
  (let s := publish_and_wait behave b "*" d store sched in
   undisturbed sched → r_act s = Resolved →
   sig_of <$> r_log s =
     level_plan b "*" d "*" ++
     (if decide (_sep b = "*") then level_plan b "*" d EmptyString else []) ++
     level_plan b "*" d "*") ∧
  (∀ c, first_split (_sep b) c "*" →
     let s := publish_and_wait behave b c d store sched in
     undisturbed sched → r_act s = Resolved →
     sig_of <$> r_log s =
       level_plan b c d c ++ level_plan b c d "*" ++ level_plan b c d "*").
Proof.
  intros Hsep. split; [|split; [|split]].
  - by apply expand_star.
  - intros c. apply expand_base.
  - intros s Hq Hres. subst s.
    rewrite (publish_resolved behave b "*" d store sched Hq Hres).
    rewrite expand_star by done.
    case_decide; unfold plan; simpl; by rewrite ?app_nil_r.
  - intros c Hc s Hq Hres. subst s.
    rewrite (publish_resolved behave b c d store sched Hq Hres).
    rewrite (expand_base _ _ _ Hc).
    unfold plan; simpl; by rewrite ?app_nil_r.
Qed.

(** *** A publish whose callbacks all succeed resolves *)

Lemma run_resolved sched (s : run_state Data) :
  r_act s = Resolved → r_act (run behave sched s) = Resolved.
Proof.
  revert s. induction sched as [|t sched IH]; intros s Hs; [done|].
  rewrite run_cons. apply IH. destruct s as [b log store a]. simpl in *.
  subst a. by destruct t.
Qed.

Lemma call_all_succeeds (store : gmap pid bool) cbs c d log ps :
  (∀ log cb c d, behave log cb c d ≠ Raised) →
  (∀ log cb c d p, behave log cb c d = Deferred p → store !! p = Some true) →
  (∀ p, p ∈ ps → store !! p = Some true) →
  ∃ ps', (call_all behave cbs c d log ps).2 = Some ps' ∧
         ∀ p, p ∈ ps' → store !! p = Some true.
Proof.
  intros Hnr Hdef. revert log ps.
  induction cbs as [|cb cbs IH]; intros log ps Hps; simpl; [eauto|].
  pose proof (Hnr log cb c d) as Hnr'. pose proof (Hdef log cb c d) as Hdef'.
  destruct (behave log cb c d) as [| |p]; [by apply IH | done |].
  apply IH. intros q. rewrite elem_of_app, list_elem_of_singleton.
  intros [?| ->]; eauto.
Qed.

Lemma levels_succeeds (store : gmap pid bool) b c d ls log :
  (∀ log cb c d, behave log cb c d ≠ Raised) →
  (∀ log cb c d p, behave log cb c d = Deferred p → store !! p = Some true) →
  all_sets b ls →
  (levels behave b c d ls log).2 = Resolved ∨
  ∃ ps rest, (levels behave b c d ls log).2 = Awaiting c d ps rest ∧
             length rest < length ls ∧ all_sets b rest ∧
             ∀ p, p ∈ ps → store !! p = Some true.
Proof.
  intros Hnr Hdef. induction ls as [|l ls IH]; intros Hall; [by left|].
  assert (all_sets b ls) as Hall' by (intros k Hk; apply Hall; by right).
  rewrite levels_cons_set by (apply Hall; left).
  destruct (registered b l) as [|cb cbs].
  - destruct (IH Hall') as [?|(ps & rest & ? & ? & ? & ?)]; [by left|].
    right. exists ps, rest. repeat split; try done. simpl. lia.
  - destruct (call_all_succeeds store (cb :: cbs) c d log [] Hnr Hdef)
      as (ps' & Hps' & Hful); [intros p Hp; by apply elem_of_nil in Hp|].
    destruct (call_all behave (cb :: cbs) c d log []) as [log' r].
    cbn [snd] in Hps'. subst r. right. exists ps', ls.
    repeat split; try done. simpl. lia.
Qed.

Lemma run_wakes_resolves (store : gmap pid bool) b c d n ps rest log :
  (∀ log cb c d, behave log cb c d ≠ Raised) →
  (∀ log cb c d p, behave log cb c d = Deferred p → store !! p = Some true) →
  (∀ p, p ∈ ps → store !! p = Some true) →
  all_sets b rest →
  length rest < n →
  r_act (run behave (replicate n Wake)
           (RunState b log store (Awaiting c d ps rest))) = Resolved.
Proof.
  intros Hnr Hdef. revert ps rest log.
  induction n as [|n IH]; intros ps rest log Hps Hall Hlen; [lia|].
  unfold run. cbn [replicate foldl step resume r_bus r_act r_log r_store].
  rewrite (proj2 (promise_all_fulfilled store ps) Hps).
  destruct (levels_succeeds store b c d rest log Hnr Hdef Hall)
    as [Hr|(ps' & rest' & Hr & Hlen' & Hall' & Hps')];
    destruct (levels behave b c d rest log) as [log' a']; cbn [snd] in Hr; subst a'.
  - fold (run behave (replicate n Wake)).
    by apply run_resolved.
  - apply IH; [done|done|lia].
Qed.

Lemma publish_resolves (store : gmap pid bool) b c d n :
  (∀ log cb c d, behave log cb c d ≠ Raised) →
  (∀ log cb c d p, behave log cb c d = Deferred p → store !! p = Some true) →
  all_sets b (_expandChannelsToListeners (_sep b) c) →
  (length (_expandChannelsToListeners (_sep b) c) ≤ n)%nat →
  r_act (publish_and_wait behave b c d store (replicate n Wake)) = Resolved.
Proof.
  intros Hnr Hdef Hall Hn. unfold publish_and_wait, sendAndWait.
  destruct (levels_succeeds store b c d (_expandChannelsToListeners (_sep b) c) []
              Hnr Hdef Hall)
    as [Hr|(ps' & rest' & Hr & Hlen' & Hall' & Hps')];
    destruct (levels behave b c d _ []) as [log' a']; cbn [snd] in Hr; subst a'.
  - by apply run_resolved.
  - apply run_wakes_resolves; try done. lia.
Qed.

End Outcomes.

Lemma expand_length sep c :
  (length (_expandChannelsToListeners sep c) ≤ 3)%nat.
Proof.
  unfold _expandChannelsToListeners.
  destruct (negb _); [destruct (split1 c sep)|]; simpl; lia.
Qed.

(** ** The closures of the queue, when they run *)

Section Queue.

Context {Data : Type}.
Variable behave : list (call Data) → cbid → string → Data → outcome.

Lemma run_task_members b (t : task Data) log x :
  x ∈ (run_task behave b t log).1 →
  x ∈ log ∨ c_cb x ∈ members b (t_cbs t).
Proof.
  unfold run_task, call_each. destruct (t_cbs t) as [l|]; [|by left].
  cbn [members].
  destruct (call_all_spec behave (deref b l) (t_channel t) (t_data t) log [])
    as [new [Hlog Hres]].
  destruct (call_all behave _ _ _ log []) as [log' r]. cbn [fst snd] in *.
  subst log'.
  assert ((sig_of <$> new) `prefix_of`
          ((λ cb, (cb, t_channel t, t_data t)) <$> deref b l)) as [k Hk].
  { destruct r; [destruct Hres as (-> & _) | destruct Hres as (? & ? & _ & _ & _ & ?)]; done. }
  assert (∀ y, y ∈ new → c_cb y ∈ deref b l) as Hnew.
  { intros y Hy.
    assert (sig_of y ∈ (λ cb, (cb, t_channel t, t_data t)) <$> deref b l) as Hin.
    { rewrite Hk. apply elem_of_app. left. apply list_elem_of_fmap. eauto. }
    apply list_elem_of_fmap in Hin as (cb & Heq & Hcb). unfold sig_of in Heq.
    by injection Heq as -> _ _. }
  destruct r; cbn [fst]; rewrite elem_of_app; intros [?|?]; eauto.
Qed.

Lemma drain_queue_members b (q : list (task Data)) log x :
  x ∈ drain_queue behave b q log →
  x ∈ log ∨ ∃ t, t ∈ q ∧ c_cb x ∈ members b (t_cbs t).
Proof.
  revert log. induction q as [|t q IH]; intros log; simpl; [by left|].
  pose proof (run_task_members b t log x) as Ht.
  destruct (run_task behave b t log) as [log' [|]]; cbn [fst] in Ht.
  - intros Hx. destruct (IH _ Hx) as [Hx'|(t' & Ht' & H')].
    + destruct (Ht Hx'); [by left|]. right. exists t. split; [left|done].
    + right. exists t'. split; [by right|done].
  - intros Hx. destruct (Ht Hx); [by left|]. right. exists t. split; [left|done].
Qed.

(** A closure that holds a Set runs to its end when no callback raises. *)
Lemma run_task_completes b (t : task Data) log :
  (∀ log cb c d, behave log cb c d ≠ Raised) →
  t_cbs t ≠ Not_a_Set →
  ∃ new, run_task behave b t log = (log ++ new, true) ∧
         sig_of <$> new =
           (λ cb, (cb, t_channel t, t_data t)) <$> members b (t_cbs t).
Proof.
  intros Hnr Hset. unfold run_task, call_each.
  destruct (t_cbs t) as [l|]; [|done]. cbn [members].
  destruct (call_all_spec behave (deref b l) (t_channel t) (t_data t) log [])
    as [new [Hlog Hres]].
  destruct (call_all_never_raises behave (deref b l) (t_channel t)
              (t_data t) log [] Hnr) as [ps Hps].
  rewrite Hps in Hres. destruct Hres as (Hsig & _ & _).
  destruct (call_all behave _ _ _ log []) as [log' r]. cbn [fst snd] in *.
  subst r log'. by exists new.
Qed.

Lemma run_task_calls_members b (t : task Data) log cb :
  (∀ log cb c d, behave log cb c d ≠ Raised) →
  cb ∈ members b (t_cbs t) →
  ∃ log', run_task behave b t log = (log', true) ∧ log `prefix_of` log' ∧
          ∃ x, x ∈ log' ∧ sig_of x = (cb, t_channel t, t_data t).
Proof.
  intros Hnr Hcb.
  destruct (run_task_completes b t log Hnr) as (new & -> & Hsig).
  { intros Heq. rewrite Heq in Hcb. by apply elem_of_nil in Hcb. }
  eexists. split; [done|]. split; [by apply prefix_app_r|].
  assert ((cb, t_channel t, t_data t) ∈ sig_of <$> new) as Hin.
  { rewrite Hsig. apply list_elem_of_fmap. by exists cb. }
  apply list_elem_of_fmap in Hin as (x & Hx & Hin).
  exists x. split; [|done]. apply elem_of_app. by right.
Qed.

Lemma run_task_prefix b (t : task Data) log :
  log `prefix_of` (run_task behave b t log).1.
Proof.
  unfold run_task, call_each. destruct (t_cbs t) as [l|]; [|done].
  destruct (call_all_spec behave (deref b l) (t_channel t) (t_data t) log [])
    as [new [Hlog _]].
  destruct (call_all behave _ _ _ log []) as [log' [ps|]]; cbn [fst] in *;
    subst log'; by apply prefix_app_r.
Qed.

Lemma drain_queue_prefix b (q : list (task Data)) log :
  log `prefix_of` drain_queue behave b q log.
Proof.
  revert log. induction q as [|t q IH]; intros log; simpl; [done|].
  pose proof (run_task_prefix b t log) as Hp.
  destruct (run_task behave b t log) as [log' [|]]; cbn [fst] in Hp; [|done].
  etrans; [exact Hp|apply IH].
Qed.

Lemma drain_queue_calls_members b (q : list (task Data)) log t cb :
  (∀ log cb c d, behave log cb c d ≠ Raised) →
  Forall (λ t, t_cbs t ≠ Not_a_Set) q →
  t ∈ q → cb ∈ members b (t_cbs t) →
  ∃ x, x ∈ drain_queue behave b q log ∧ sig_of x = (cb, t_channel t, t_data t).
Proof.
  intros Hnr Hq Ht Hcb. revert log.
  induction Hq as [|t' q Ht' _ IH]; intros log.
  { by apply elem_of_nil in Ht. }
  cbn [drain_queue]. apply elem_of_cons in Ht as [<-|Ht].
  - destruct (run_task_calls_members b t log cb Hnr Hcb)
      as (log' & -> & _ & x & Hx & Hsig).
    exists x. split; [|done].
    destruct (drain_queue_prefix b q log') as [k ->]. apply elem_of_app. by left.
  - destruct (run_task_completes b t' log Hnr Ht') as (new & -> & _).
    by apply IH.
Qed.

(** The closures queued for listeners that are not inherited names hold
    Sets. *)
Lemma units_sets b c (d : Data) :
  all_sets b (_expandChannelsToListeners (_sep b) c) →
  Forall (λ t, t_cbs t ≠ Not_a_Set) (units b c d).
Proof.
  intros Hall. apply Forall_forall. intros t. unfold units.
  rewrite list_elem_of_omap. intros (l & Hl & Ht).
  pose proof (unit_for_cases b c d l) as Hc. rewrite Ht in Hc.
  destruct Hc as (_ & _ & Hs & _). intros Heq. rewrite Heq in Hs.
  by apply (Hall l).
Qed.

Lemma units_of_listener b c (d : Data) k :
  k ∈ _expandChannelsToListeners (_sep b) c → registered b k ≠ [] →
  ∃ l, _subs b !! k = Some l ∧ Task (A_Set l) c d ∈ units b c d.
Proof.
  intros Hk Hne. unfold registered in Hne.
  destruct (_subs b !! k) as [l|] eqn:Hl; [|done]. exists l. split; [done|].
  unfold units. apply list_elem_of_omap. exists k. split; [done|].
  unfold unit_for. rewrite (proj2 (subs_at_Set b k l) Hl).
  by destruct (deref b l).
Qed.


End Queue.

(** ** Two subscriptions of one callback *)


(** ** The scenarios of the tests *)

(** "channels with ids": the callbacks are called most specific first. *)
Example ids_order :
  sig_of <$> r_log (publish_and_wait plain ids_bus "changed:12345" 5 ∅
                      [Wake; Wake; Wake]) =
  [(2, "changed:12345", 5); (1, "changed:12345", 5); (3, "changed:12345", 5)].
Proof. vm_compute. reflexivity. Qed.

(** While the Promise of callback [2] is pending no further level is
    called, however many turns the event loop gives. *)
Example ids_pending :
  c_cb <$> r_log (publish_and_wait one_async ids_bus "changed:12345" 5 ∅
                    [Wake; Wake; Wake]) = [2].
Proof. vm_compute. reflexivity. Qed.

(** Once that Promise is rejected the publish is, and no further level is
    called. *)
Example ids_fail_fast :
  r_act (publish_and_wait one_async ids_bus "changed:12345" 5 ∅
           [Settle 7 false; Wake; Wake]) = Rejected ∧
  c_cb <$> r_log (publish_and_wait one_async ids_bus "changed:12345" 5 ∅
                    [Settle 7 false; Wake; Wake]) = [2].
Proof. vm_compute. split; reflexivity. Qed.

(** A callback subscribed to "*" while the publish is suspended is called
    when the publish reaches that level. *)
Example ids_busy :
  c_cb <$> r_log (publish_and_wait plain ids_bus "changed:12345" 5 ∅ busy_sched)
  = [2; 1; 3; 4].
Proof. vm_compute. reflexivity. Qed.

(** [sendLater] on the same bus: three closures, run in order by the
    queue. *)
Example ids_later :
  c_cb <$> w_log (drain plain (sendLater "changed:12345" 5 (World ids_bus [] [])))
  = [2; 1; 3].
Proof. vm_compute. reflexivity. Qed.

(** ** Names inherited from [Object.prototype] *)

(** [on('constructor', cb)] raises: it returns no unsubscribe function and
    registers nothing. *)
Example on_constructor :
  on (inl "constructor") 1 no_arrays (new_Superbus ":") =
  (new_Superbus ":", None).
Proof. vm_compute. reflexivity. Qed.

(** An array with an inherited name in the middle: the channels in front of
    it are subscribed, those behind it are not. *)
Example on_array_with_inherited_name :
  let mem : arrays := λ _, ["open"; "toString"; "close"] in
  let r := on (inr 0) 1 mem (new_Superbus ":") in
  r.2 = None ∧ registered r.1 "open" = [1] ∧ registered r.1 "close" = [].
Proof. vm_compute. repeat split; reflexivity. Qed.

(** [sendAndWait('toString')] is rejected without a call, though a callback
    is subscribed to "*"; so is a publish on a channel whose base is
    "toString". *)
Example sendAndWait_toString :
  sendAndWait plain ids_bus "toString" 5 [] = ([], Rejected) ∧
  sendAndWait plain ids_bus "toString:1" 5 [] = ([], Rejected).
Proof. vm_compute. split; reflexivity. Qed.

(** [sendLater('hasOwnProperty')] on a new bus queues a closure, which
    raises when it runs; on the bus of the test, the closure queued behind
    it for "*" is never run. *)
Example sendLater_hasOwnProperty :
  w_queue (sendLater "hasOwnProperty" 5 (new_world ":")) =
    [Task Not_a_Set "hasOwnProperty" 5] ∧
  w_queue (sendLater "hasOwnProperty" 5 (World ids_bus [] [])) =
    [Task Not_a_Set "hasOwnProperty" 5; Task (A_Set 2) "hasOwnProperty" 5] ∧
  w_log (drain plain (sendLater "hasOwnProperty" 5 (World ids_bus [] []))) = [].
Proof. vm_compute. repeat split; reflexivity. Qed.

(** An unsubscribe function whose array has come to hold an inherited
    name raises there: the channels behind it keep the callback. *)
Example handle_raises_at_inherited_name :
  let mem : arrays := λ _, ["toString"; "changed"] in
  unsubscribe (Thunk (inr 0) 1) mem ids_bus = (ids_bus, false) ∧
  registered (unsubscribe (Thunk (inr 0) 1) mem ids_bus).1 "changed" = [1].
Proof. vm_compute. split; reflexivity. Qed.

(** ** The theorems on the scenarios *)

Lemma ids_bus_wf : wf ids_bus.
Proof. unfold ids_bus. repeat apply on_wf. apply wf_new. Qed.

Lemma all_sets_Forall b ls :
  Forall (λ l, subs_at b l ≠ Some Not_a_Set) ls → all_sets b ls.
Proof. intros H l Hl. by eapply Forall_forall in H. Qed.

Lemma expand_spec_witness :
  ":" ≠ EmptyString ∧ occurs ":" "changed:a:b" ∧
  ∃ base, first_split ":" "changed:a:b" base ∧
          _expandChannelsToListeners ":" "changed:a:b" =
            ["changed:a:b"; base; "*"].
Proof.
  assert (":" ≠ EmptyString) as Hsep by discriminate.
  assert (occurs ":" "changed:a:b") as Hoc.
  { exists "changed", "a:b". reflexivity. }
  exact (conj Hsep (conj Hoc (proj1 (expand_spec ":" "changed:a:b" Hsep) Hoc))).
Defined.

Lemma sendAndWait_level_barrier_witness :
  undisturbed ids_sched ∧
  r_act (publish_and_wait one_async ids_bus "changed:12345" 5 ∅ ids_sched)
    = Resolved ∧
  sig_of <$> r_log (publish_and_wait one_async ids_bus "changed:12345" 5 ∅ ids_sched)
    = plan ids_bus "changed:12345" 5 ["changed:12345"; "changed"; "*"] ∧
  Forall (λ p, r_store (publish_and_wait one_async ids_bus "changed:12345" 5 ∅
                          ids_sched) !! p = Some true)
         (promises_of (r_log (publish_and_wait one_async ids_bus
                                "changed:12345" 5 ∅ ids_sched))).
Proof.
  assert (undisturbed ids_sched) as Hq by reflexivity.
  assert (r_act (publish_and_wait one_async ids_bus "changed:12345" 5 ∅ ids_sched)
          = Resolved) as Hres.
  { vm_compute. reflexivity. }
  pose proof (sendAndWait_level_barrier one_async ids_bus "changed:12345" 5 ∅
                ids_sched) as H.
  cbv zeta in H. destruct H as (_ & Hps & Hplan).
  destruct (Hplan Hq) as (_ & _ & Hsig).
  split; [exact Hq|]. split; [exact Hres|]. split; [exact (Hsig Hres)|].
  apply Forall_forall. exact (Hps Hres).
Defined.

Lemma callbacks_receive_original_channel_witness :
  Forall (λ x, c_channel x = "changed:12345" ∧ c_data x = 5)
         (r_log (publish_and_wait plain ids_bus "changed:12345" 5 ∅ busy_sched)).
Proof.
  apply Forall_forall. intros x Hx.
  exact (proj1 (callbacks_receive_original_channel plain ids_bus
                  "changed:12345" 5) ∅ busy_sched x Hx).
Defined.


Lemma removeAll_silences_queued_units_witness :
  wf ids_bus ∧
  w_log (drain plain (w_removeAllSubscriptions
                        (sendLater "changed:12345" 5 (World ids_bus [] [])))) = [].
Proof.
  split; [exact ids_bus_wf|].
  pose proof (removeAll_silences_queued_units plain "changed:12345" 5
                (World ids_bus [] []) ids_bus_wf) as H.
  cbv zeta in H. destruct H as (_ & _ & Hlog). exact Hlog.
Defined.

Lemma open_close_bus_on :
  on (inr 0) 1 open_close (new_Superbus ":") =
  (open_close_bus, Some (Thunk (inr 0) 1)).
Proof. vm_compute. reflexivity. Qed.


Lemma open_close_bus_wf : wf open_close_bus.
Proof. apply on_wf, wf_new. Qed.

Lemma handle_round_trip_witness :
  wf (new_Superbus ":") ∧
  on (inr 0) 1 open_close (new_Superbus ":") =
    (open_close_bus, Some (Thunk (inr 0) 1)) ∧
  wf open_close_changed_bus ∧
  (unsubscribe (Thunk (inr 0) 1) open_close open_close_changed_bus).2 = true ∧
  (1 ∉ registered
         (unsubscribe (Thunk (inr 0) 1) open_close open_close_changed_bus).1
         "open") ∧
  registered (unsubscribe (Thunk (inr 0) 1) open_close open_close_changed_bus).1
    "changed" = registered open_close_changed_bus "changed" ∧
  unsubscribe (Thunk (inr 0) 1) open_close
    (unsubscribe (Thunk (inr 0) 1) open_close open_close_changed_bus).1 =
  ((unsubscribe (Thunk (inr 0) 1) open_close open_close_changed_bus).1, true).
Proof.
  assert (wf open_close_changed_bus) as Hwf by apply on_wf, open_close_bus_wf.
  split; [apply wf_new|]. split; [exact open_close_bus_on|].
  split; [exact Hwf|].
  pose proof (handle_round_trip (inr 0) 1 open_close open_close
                (new_Superbus ":") open_close_bus open_close_changed_bus
                (Thunk (inr 0) 1) (wf_new ":") open_close_bus_on Hwf) as H.
  cbv zeta in H. destruct H as (Hsame & _).
  destruct (Hsame eq_refl) as (Hok & Hgone & Hother & Hagain).
  split; [exact Hok|]. split; [apply (Hgone "open"); left|].
  split; [|exact Hagain]. apply Hother.
  intros Hin. apply elem_of_cons in Hin as [Hin|Hin]; [discriminate|].
  apply list_elem_of_singleton in Hin. discriminate.
Defined.


Lemma sendAndWait_failure_witness :
  2 = length (r_log (publish_and_wait one_raises ids_bus "changed:12345" 5 ∅
                       [Wake; Wake; Wake])) ∧
  r_act (publish_and_wait one_raises ids_bus "changed:12345" 5 ∅
           [Wake; Wake; Wake]) = Rejected.
Proof.
  pose proof (sendAndWait_failure one_raises ids_bus "changed:12345" 5 ∅
                [Wake; Wake; Wake]) as H.
  cbv zeta in H. destruct H as (Hraise & _).
  apply (Hraise 1 (Call 1 "changed:12345" 5 Raised)).
  - vm_compute. reflexivity.
  - reflexivity.
Defined.

Lemma registry_never_holds_empty_set_witness :
  registered (mutate_all (new_Superbus ":") client_calls) "open" ≠ [].
Proof.
  apply (registry_never_holds_empty_set ":" client_calls "open").
  vm_compute. eexists. reflexivity.
Defined.

Lemma wildcard_publish_delivers_twice_witness :
  _sep ids_bus ≠ EmptyString ∧
  sig_of <$> r_log (publish_and_wait plain ids_bus "*" 5 ∅ [Wake; Wake]) =
    [(3, "*", 5); (3, "*", 5)].
Proof.
  assert (_sep ids_bus ≠ EmptyString) as Hsep by discriminate.
  split; [exact Hsep|].
  pose proof (wildcard_publish_delivers_twice plain ids_bus 5 ∅ [Wake; Wake]
                Hsep) as H.
  destruct H as (_ & _ & Hstar & _). cbv zeta in Hstar.
  rewrite Hstar; [|reflexivity|vm_compute; reflexivity].
  vm_compute. reflexivity.
Defined.

(** ** Where the code departs from the specification *)

(** C5 as stated fails: callback [1] is subscribed to "a" when
    [sendLater("a", 5)] queues its closure, [removeAllSubscriptions()]
    follows, and draining the queue calls nothing. *)
Lemma queued_unit_after_removeAll_counterexample :
  registered (w_bus a_world) "a" = [1] ∧
  w_queue a_world_cleared = [Task (A_Set 0) "a" 5] ∧
  w_log (drain plain a_world_cleared) = [].
Proof. vm_compute. repeat split; reflexivity. Qed.

(** C6 as stated fails: [on(arr, cb)] is called while [arr] holds "open";
    the caller then stores "close" in [arr]; the unsubscribe function
    returns, and the callback is still registered under "open", the
    channel passed to the call of [on]. *)
Lemma mutated_array_counterexample :
  on (inr 0) 1 just_open (new_Superbus ":") = (array_bus, Some array_thunk) ∧
  channels_of just_open (inr 0) = ["open"] ∧
  registered array_bus "open" = [1] ∧
  unsubscribe array_thunk just_close array_bus = (array_bus, true) ∧
  registered (unsubscribe array_thunk just_close array_bus).1 "open" = [1].
Proof. vm_compute. repeat split; reflexivity. Qed.


(** * Further properties of the bus *)

(** ** The base of a channel *)

Lemma base_has_no_separator sep c base :
  sep ≠ EmptyString → first_split sep c base → ¬ occurs sep base.
Proof.
  intros Hsep [[r Hr] Hmin] (p1 & r1 & Hp).
  assert (c = p1 +:+ sep +:+ (r1 +:+ sep +:+ r)) as Hc.
  { rewrite Hr, Hp. by rewrite !app_assoc_s. }
  apply Hmin in Hc. rewrite Hp, !length_app_s in Hc.
  destruct sep; [done|]. simpl in Hc. lia.
Qed.

(** X1: the base of a channel holds no separator, so it expands to itself
    and "*" only, and every listener a publish on the base reaches is one a
    publish on the channel reaches. *)
Theorem base_is_not_expanded_again (sep c base : string) :
  sep ≠ EmptyString → first_split sep c base →
  _expandChannelsToListeners sep base = [base; "*"] ∧
  ∀ l, l ∈ _expandChannelsToListeners sep base →
       l ∈ _expandChannelsToListeners sep c.
Proof.
  intros Hsep Hfs.
  assert (_expandChannelsToListeners sep base = [base; "*"]) as Hb.
  { apply expand_plain; [done|]. by eapply base_has_no_separator. }
  split; [done|]. rewrite Hb, (expand_base _ _ _ Hfs).
  intros l Hl. apply elem_of_cons in Hl as [->|Hl].
  - apply list_elem_of_further, list_elem_of_here.
  - apply list_elem_of_singleton in Hl as ->.
    do 2 apply list_elem_of_further. apply list_elem_of_here.
Qed.

(** ** Subscribing again, and in order *)

(** X2: a second [on] with the same channels and callback, the array
    holding the same, leaves the bus exactly as the first one left it, and
    returns or raises as the first one did. *)
Theorem subscribing_twice_is_subscribing_once
    (input : string + aref) (cb : cbid) (mem : arrays) (b : bus) :
  wf b →
  (on input cb mem (on input cb mem b).1).1 = (on input cb mem b).1 ∧
  (on input cb mem (on input cb mem b).1).2 = (on input cb mem b).2.
Proof.
  intros Hwf.
  assert (wf (on input cb mem b).1) as Hwf1 by by apply on_wf.
  split.
  - rewrite (on_bus input cb mem (on input cb mem b).1).
    apply subscribe_each_present; [done|].
    intros k Hk. rewrite registered_on, decide_True by done.
    apply elem_of_Set_add. by left.
  - rewrite !on_thunk.
    pose proof (subscribe_each_ok cb (channels_of mem input) b Hwf) as H1.
    pose proof (subscribe_each_ok cb (channels_of mem input) _ Hwf1) as H2.
    destruct (subscribe_each cb b (channels_of mem input)).2,
      (subscribe_each cb (on input cb mem b).1 (channels_of mem input)).2;
      try done.
    + assert (false = true); [|done]. apply H2. by apply H1.
    + assert (false = true); [|done]. apply H1. by apply H2.
Qed.

Lemma registered_mutate_subscribe mem ch cbs b :
  wf b → inherited ch = false → NoDup cbs →
  (∀ cb, cb ∈ cbs → cb ∉ registered b ch) →
  registered (mutate_all b ((λ cb, (mem, Subscribe (inl ch) cb)) <$> cbs)) ch =
  registered b ch ++ cbs ∧
  ∀ k, k ≠ ch →
    registered (mutate_all b ((λ cb, (mem, Subscribe (inl ch) cb)) <$> cbs)) k =
    registered b k.
Proof.
  intros Hwf Hch. unfold mutate_all. revert b Hwf.
  induction cbs as [|cb cbs IH]; intros b Hwf Hnd Hnew.
  - simpl. by rewrite app_nil_r.
  - apply NoDup_cons in Hnd as [Hcb Hnd].
    rewrite fmap_cons. cbn [foldl mutate fst snd].
    assert (reached (channels_of mem (inl ch)) = [ch]) as Hreach.
    { simpl. by rewrite Hch. }
    assert (registered (on (inl ch) cb mem b).1 ch = registered b ch ++ [cb])
      as Hone.
    { rewrite registered_on, Hreach by done.
      rewrite decide_True by left. unfold Set_add.
      rewrite decide_False; [done|]. apply Hnew. left. }
    assert (∀ k, k ≠ ch → registered (on (inl ch) cb mem b).1 k = registered b k)
      as Hoth.
    { intros k Hk. rewrite registered_on, Hreach by done.
      rewrite decide_False; [done|]. by intros ?%list_elem_of_singleton. }
    destruct (IH (on (inl ch) cb mem b).1) as [H1 H2].
    + by apply on_wf.
    + done.
    + intros cb' Hcb'. rewrite Hone, elem_of_app, list_elem_of_singleton.
      intros [?| ->]; [|done]. eapply Hnew; [by right|done].
    + split.
      * rewrite H1, Hone. by rewrite <- app_assoc.
      * intros k Hk. rewrite H2 by done. by apply Hoth.
Qed.

Section FirstTurn.

Context {Data : Type}.
Variable behave : list (call Data) → cbid → string → Data → outcome.


Lemma levels_skip b c d skipped ls log :
  (∀ k, k ∈ skipped → registered b k = []) → all_sets b skipped →
  levels behave b c d (skipped ++ ls) log = levels behave b c d ls log.
Proof.
  induction skipped as [|k skipped IH]; intros Hs Hall; [done|].
  rewrite <- app_comm_cons, levels_cons_set, (Hs k) by (try apply Hall; left).
  apply IH; [intros k' Hk'; apply Hs; by right|].
  intros k' Hk'. apply Hall. by right.
Qed.

Lemma levels_first_turn b c d l rest log :
  (∀ log cb c d, behave log cb c d ≠ Raised) →
  registered b l ≠ [] →
  ∃ new, levels behave b c d (l :: rest) log =
           (log ++ new, Awaiting c d (promises_of new) rest) ∧
         sig_of <$> new = level_plan b c d l.
Proof.
  intros Hnr Hne. rewrite levels_cons_set
    by (intros Hs; by apply registered_inherited in Hs).
  destruct (registered b l) as [|cb cbs] eqn:Hreg; [done|].
  destruct (call_all_spec behave (cb :: cbs) c d log []) as [new [Hlog Hres]].
  destruct (call_all_never_raises behave (cb :: cbs) c d log [] Hnr) as [ps Hps].
  rewrite Hps in Hres. destruct Hres as (Hsig & -> & _).
  destruct (call_all behave (cb :: cbs) c d log []) as [log' r].
  cbn [fst snd] in *. subst r log'. exists new. split; [done|].
  unfold level_plan. by rewrite Hreg.
Qed.

Lemma levels_calls_registered b c d ls log x :
  x ∈ (levels behave b c d ls log).1 →
  x ∈ log ∨ ∃ l, l ∈ ls ∧ c_cb x ∈ registered b l.
Proof.
  destruct (levels_spec behave b c d ls log) as [new [Hlog Hres]].
  rewrite Hlog, elem_of_app. intros [?|Hx]; [by left|]. right.
  assert (∃ ls', (sig_of <$> new) `prefix_of` plan b c d ls' ∧ ls' ⊆ ls)
    as (ls' & [k Hk] & Hsub).
  { destruct (levels behave b c d ls log).2 as [c' d' ps rest| |].
    - destruct Hres as (_ & _ & (visited & -> & Hsig) & _).
      exists visited. rewrite Hsig. split; [done|]. set_solver.
    - destruct Hres as (_ & ->). by apply elem_of_nil in Hx.
    - destruct Hres as (Hpre & _). by exists ls. }
  assert (sig_of x ∈ plan b c d ls') as Hin.
  { rewrite Hk. apply elem_of_app. left. apply list_elem_of_fmap. eauto. }
  unfold plan in Hin. apply list_elem_of_bind in Hin as (l & Hin & Hl).
  unfold level_plan in Hin. apply list_elem_of_fmap in Hin as (cb & Heq & Hcb).
  exists l. split; [by apply Hsub|]. unfold sig_of in Heq.
  by injection Heq as -> _ _.
Qed.

End FirstTurn.

(** X3: callbacks subscribed one after the other to a channel that is not
    an inherited name are enumerated after those already there, in the
    order of their subscription; no other channel changes; and a publish
    on that channel calls them in that order before its first [await]
    (when none raises). *)
Theorem callbacks_enumerate_in_subscription_order {Data : Type}
    (behave : list (call Data) → cbid → string → Data → outcome)
    (mem : arrays) (ch : string) (cbs : list cbid) (b : bus) :
  wf b → inherited ch = false → NoDup cbs →
  (∀ cb, cb ∈ cbs → cb ∉ registered b ch) →
  let b' := mutate_all b ((λ cb, (mem, Subscribe (inl ch) cb)) <$> cbs) in
  registered b' ch = registered b ch ++ cbs ∧
  (∀ k, k ≠ ch → registered b' k = registered b k) ∧
  ((∀ log cb c d, behave log cb c d ≠ Raised) →
   registered b ch ++ cbs ≠ [] →
   ∀ d, c_cb <$> (sendAndWait behave b' ch d []).1 = registered b ch ++ cbs).
Proof.
  intros Hwf Hch Hnd Hnew b'.
  destruct (registered_mutate_subscribe mem ch cbs b Hwf Hch Hnd Hnew) as [H1 H2].
  fold b' in H1, H2. split; [done|]. split; [done|].
  intros Hnr Hne d. unfold sendAndWait.
  destruct (expand_head (_sep b') ch) as [rest ->].
  destruct (levels_first_turn behave b' ch d ch rest [] Hnr) as (new & -> & Hsig).
  { by rewrite H1. }
  cbn [fst]. rewrite app_nil_l.
  assert (c_cb <$> new = (λ y : cbid * string * Data, y.1.1) <$> (sig_of <$> new))
    as -> by (by rewrite <- list_fmap_compose).
  rewrite Hsig. unfold level_plan. rewrite <- list_fmap_compose, H1.
  by rewrite list_fmap_id.
Qed.


(** ** After [removeAllSubscriptions] *)

Lemma registered_removeAll b k : registered (removeAllSubscriptions b) k = [].
Proof. unfold registered. simpl. by rewrite lookup_empty. Qed.

Lemma subs_at_removeAll b k :
  subs_at (removeAllSubscriptions b) k =
  if inherited k then Some Not_a_Set else None.
Proof. unfold subs_at. simpl. by rewrite lookup_empty. Qed.

Lemma unit_for_empty {Data : Type} b c (d : Data) l :
  registered b l = [] → subs_at b l ≠ Some Not_a_Set → unit_for b c d l = None.
Proof.
  intros Hreg Hs. pose proof (unit_for_cases b c d l) as H.
  destruct (unit_for b c d l) as [t|]; [|done].
  destruct H as (_ & _ & Hv & [?|Ht]); [done|]. by rewrite Ht in Hv.
Qed.

Lemma omap_cons_match {A B} (f : A → option B) x xs :
  omap f (x :: xs) = match f x with
                     | Some y => y :: omap f xs
                     | None => omap f xs
                     end.
Proof. reflexivity. Qed.

Lemma units_empty {Data : Type} b c (d : Data) :
  (∀ l, l ∈ _expandChannelsToListeners (_sep b) c → registered b l = []) →
  all_sets b (_expandChannelsToListeners (_sep b) c) →
  units b c d = [].
Proof.
  unfold units. induction (_expandChannelsToListeners (_sep b) c) as [|l ls IH];
    intros Hls Hall; [done|].
  rewrite omap_cons_match.
  rewrite unit_for_empty by (try apply Hls; try apply Hall; left).
  apply IH; [intros k Hk; apply Hls; by right|].
  intros k Hk. apply Hall. by right.
Qed.

Section Cleared.

Context {Data : Type}.
Variable behave : list (call Data) → cbid → string → Data → outcome.

Lemma levels_removeAll b c d ls log :
  levels behave (removeAllSubscriptions b) c d ls log =
  (log, if existsb inherited ls then Rejected else Resolved).
Proof.
  induction ls as [|l ls IH]; [done|].
  rewrite levels_cons, subs_at_removeAll, registered_removeAll. cbn [existsb].
  destruct (inherited l); [done|]. by rewrite IH.
Qed.

Lemma units_removeAll b c (d : Data) (ls : list string) :
  omap (unit_for (removeAllSubscriptions b) c d) ls =
  (λ _, Task Not_a_Set c d) <$> filter (λ l, inherited l = true) ls.
Proof.
  induction ls as [|l ls IH]; [done|].
  rewrite omap_cons_match. unfold unit_for at 1. rewrite subs_at_removeAll.
  destruct (inherited l) eqn:Hi.
  - rewrite filter_cons_True by done. rewrite fmap_cons. by f_equal.
  - by rewrite filter_cons_False by congruence.
Qed.

End Cleared.

(** X5: after [removeAllSubscriptions] no channel has a callback.  A
    publish by [sendAndWait] then makes no call: it resolves at its call,
    or is rejected at its call when a listener of the channel is an
    inherited name.  [sendLater] queues nothing but a closure for each
    listener that is an inherited name.  An unsubscribe function changes
    nothing, and neither does a second [removeAllSubscriptions]. *)
Theorem removeAll_leaves_nothing {Data : Type}
    (behave : list (call Data) → cbid → string → Data → outcome) (b : bus) :
  let b' := removeAllSubscriptions b in
  (∀ k, registered b' k = []) ∧
  (∀ c d log,
     sendAndWait behave b' c d log =
     (log, if existsb inherited (_expandChannelsToListeners (_sep b') c)
           then Rejected else Resolved)) ∧
  (∀ c (d : Data) q log,
     sendLater c d (World b' q log) =
     World b'
       (q ++ ((λ _, Task Not_a_Set c d) <$>
              filter (λ l, inherited l = true)
                (_expandChannelsToListeners (_sep b') c)))
       log) ∧
  (∀ t mem, (unsubscribe t mem b').1 = b') ∧
  removeAllSubscriptions b' = b'.
Proof.
  intros b'. split; [apply registered_removeAll|]. split; [|split; [|split]].
  - intros c d log. apply levels_removeAll.
  - intros c d q log. unfold sendLater, b'. cbn [w_bus w_queue w_log].
    by rewrite later_levels_spec, units_removeAll.
  - intros [chans cb] mem. unfold unsubscribe, b'.
    cbn [th_callback th_channels].
    induction (channels_of mem chans) as [|k ks IH]; [done|]. simpl.
    unfold unsubscribe1. rewrite subs_at_removeAll.
    by destruct (inherited k).
  - unfold b', removeAllSubscriptions, values. simpl.
    by rewrite map_to_list_empty.
Qed.

(** What one turn of a loop keeps true, the loop keeps true. *)
Lemma subscribe_each_preserves (P : bus → Prop) cb ks b :
  (∀ b k b', P b → subscribe1 cb b k = Some b' → P b') →
  P b → P (subscribe_each cb b ks).1.
Proof.
  intros Hstep. revert b. induction ks as [|k ks IH]; intros b Hb; [done|].
  simpl. destruct (subscribe1 cb b k) as [b'|] eqn:Hs; [|done].
  apply IH. by eapply Hstep.
Qed.

Lemma unsubscribe_each_preserves (P : bus → Prop) cb ks b :
  (∀ b k b', P b → unsubscribe1 cb b k = Some b' → P b') →
  P b → P (unsubscribe_each cb b ks).1.
Proof.
  intros Hstep. revert b. induction ks as [|k ks IH]; intros b Hb; [done|].
  simpl. destruct (unsubscribe1 cb b k) as [b'|] eqn:Hs; [|done].
  apply IH. by eapply Hstep.
Qed.

Lemma mutate_preserves (P : bus → Prop) mem b m :
  (∀ cb b k b', P b → subscribe1 cb b k = Some b' → P b') →
  (∀ cb b k b', P b → unsubscribe1 cb b k = Some b' → P b') →
  (∀ b, P b → P (removeAllSubscriptions b)) →
  P b → P (mutate mem b m).
Proof.
  intros Hs Hu Hr Hb. destruct m as [input cb|[chans cb]|]; cbn [mutate].
  - rewrite on_bus. apply subscribe_each_preserves; [apply Hs|done].
  - unfold unsubscribe. apply unsubscribe_each_preserves; [apply Hu|done].
  - by apply Hr.
Qed.

Lemma mutate_all_preserves (P : bus → Prop) ms b :
  (∀ cb b k b', P b → subscribe1 cb b k = Some b' → P b') →
  (∀ cb b k b', P b → unsubscribe1 cb b k = Some b' → P b') →
  (∀ b, P b → P (removeAllSubscriptions b)) →
  P b → P (mutate_all b ms).
Proof.
  intros Hs Hu Hr. unfold mutate_all. revert b.
  induction ms as [|[mem m] ms IH]; intros b Hb; simpl; [done|].
  by apply IH, mutate_preserves.
Qed.

Lemma subscribe1_newer n cb b k b' :
  newer_than n b → subscribe1 cb b k = Some b' → newer_than n b'.
Proof.
  intros (Hwf & Hn & Hrefs) Hs. split; [by eapply subscribe1_wf|].
  unfold subscribe1, subs_at in Hs.
  destruct (_subs b !! k) as [l|] eqn:Hk;
    [|destruct (inherited k); [done|]]; injection Hs as <-; simpl.
  - done.
  - split; [lia|]. intros k' l'. rewrite lookup_insert.
    case_decide; [intros [= <-]; lia | eauto].
Qed.

Lemma subs_unsubscribe1 cb b k b' k' l :
  unsubscribe1 cb b k = Some b' →
  _subs b' !! k' = Some l → _subs b !! k' = Some l.
Proof.
  unfold unsubscribe1, subs_at.
  destruct (_subs b !! k) as [r|] eqn:Hr;
    [|destruct (inherited k); [done|]; by intros [= <-]].
  case_match; intros [= <-]; simpl; [|done].
  rewrite lookup_delete. by case_decide.
Qed.

Lemma next_ref_unsubscribe1 cb b k b' :
  unsubscribe1 cb b k = Some b' → next_ref b' = next_ref b.
Proof.
  unfold unsubscribe1, subs_at.
  destruct (_subs b !! k) as [r|];
    [|destruct (inherited k); [done|]; by intros [= <-]].
  by case_match; intros [= <-].
Qed.

Lemma unsubscribe1_newer n cb b k b' :
  newer_than n b → unsubscribe1 cb b k = Some b' → newer_than n b'.
Proof.
  intros (Hwf & Hn & Hrefs) Hs. split; [by eapply unsubscribe1_wf|].
  rewrite (next_ref_unsubscribe1 _ _ _ _ Hs). split; [done|].
  intros k' l' Hk'. eapply Hrefs, subs_unsubscribe1; eauto.
Qed.

Lemma removeAll_newer n b :
  wf b → (n ≤ next_ref b)%nat → newer_than n (removeAllSubscriptions b).
Proof.
  intros Hwf Hn. split; [by apply removeAll_wf|].
  split; [done|]. simpl. intros k l. by rewrite lookup_empty.
Qed.

Lemma mutate_all_newer n ms b : newer_than n b → newer_than n (mutate_all b ms).
Proof.
  apply mutate_all_preserves;
    eauto using subscribe1_newer, unsubscribe1_newer.
  intros b' (Hwf & Hn & _). by apply removeAll_newer.
Qed.

Lemma newer_deref n b l : newer_than n b → l < n → deref b l = [].
Proof.
  intros (Hwf & _ & Hrefs) Hl. apply (wf_orphan _ Hwf).
  intros k Hk. apply Hrefs in Hk. lia.
Qed.

Lemma units_refs {Data : Type} b c (d : Data) t l :
  wf b → t ∈ units b c d → t_cbs t = A_Set l → l < next_ref b.
Proof.
  intros Hwf. unfold units. rewrite list_elem_of_omap. intros (k & _ & Hk) Hl.
  pose proof (unit_for_cases b c d k) as H. rewrite Hk in H.
  destruct H as (_ & _ & Hs & _). rewrite Hl in Hs.
  apply subs_at_Set in Hs. by eapply (wf_next _ Hwf).
Qed.

(** X6: the closures queued before [removeAllSubscriptions] call nothing
    when they run, whatever is subscribed, unsubscribed or removed in
    between: later subscriptions never reach the Set objects they hold. *)
Theorem stale_units_stay_silent {Data : Type}
    (behave : list (call Data) → cbid → string → Data → outcome)
    (c : string) (d : Data) (w : world Data) (ms : list (arrays * mutation)) :
  wf (w_bus w) →
  Forall (λ t, ∀ l, t_cbs t = A_Set l → l < next_ref (w_bus w)) (w_queue w) →
  let w1 := sendLater c d w in
  let b' := mutate_all (removeAllSubscriptions (w_bus w1)) ms in
  w_log (drain behave (World b' (w_queue w1) (w_log w1))) = w_log w.
Proof.
  intros Hwf Hq w1 b'. unfold drain. cbn [w_log w_bus w_queue].
  apply drain_queue_silent. intros t Ht.
  destruct (t_cbs t) as [l|] eqn:Hl; [|done]. cbn [members].
  apply (newer_deref (next_ref (w_bus w)) b').
  - apply mutate_all_newer, removeAll_newer; [done|]. unfold w1. simpl. lia.
  - unfold w1, sendLater in Ht. cbn [w_queue] in Ht.
    rewrite later_levels_spec in Ht. apply elem_of_app in Ht as [Ht|Ht].
    + eapply Forall_forall in Hq; [|done]. by apply Hq.
    + by eapply units_refs.
Qed.

(** ** The queue of [sendLater] *)

Section Later.

Context {Data : Type}.
Variable behave : list (call Data) → cbid → string → Data → outcome.

(** X7: when no listener of the channel has a callback or is an inherited
    name at the call of [sendLater], nothing is queued; when a listener
    has a callback and none is an inherited name, a callback subscribed to
    that listener after the call and before the queue runs is called with
    the message (when no callback raises). *)
Theorem late_subscriber_hears_queued_message (b : bus) (c : string) (d : Data)
    (k : string) (cb : cbid) (mem : arrays) :
  ((∀ l, l ∈ _expandChannelsToListeners (_sep b) c → registered b l = []) →
   all_sets b (_expandChannelsToListeners (_sep b) c) →
   ∀ w, w_bus w = b → w_queue (sendLater c d w) = w_queue w) ∧
  (wf b → (∀ log cb c d, behave log cb c d ≠ Raised) →
   all_sets b (_expandChannelsToListeners (_sep b) c) →
   k ∈ _expandChannelsToListeners (_sep b) c → registered b k ≠ [] →
   ∀ log, ∃ x,
     x ∈ w_log (drain behave
                  (w_on (inl k) cb mem (sendLater c d (World b [] log))).1) ∧
     sig_of x = (cb, c, d)).
Proof.
  split.
  - intros Hempty Hall w <-. unfold sendLater. cbn [w_queue].
    rewrite later_levels_spec. fold (units (w_bus w) c d).
    by rewrite units_empty, app_nil_r.
  - intros Hwf Hnr Hall Hk Hne log.
    destruct (units_of_listener b c d k Hk Hne) as (l & Hl & Ht).
    unfold w_on, sendLater. cbn [w_bus w_queue w_log].
    assert (cb ∈ deref (on (inl k) cb mem b).1 l) as Hcb.
    { unfold on, channels_of, subscribe_each, subscribe1.
      rewrite (proj2 (subs_at_Set b k l) Hl). cbn [fst].
      rewrite deref_insert, decide_True by done. apply elem_of_Set_add. by left. }
    destruct (on (inl k) cb mem b) as [b' h]. cbn [fst] in *.
    unfold drain. cbn [w_bus w_queue w_log].
    rewrite later_levels_spec, app_nil_l. fold (units b c d).
    apply (drain_queue_calls_members behave b' (units b c d) log
             (Task (A_Set l) c d) cb Hnr); [by apply units_sets|done|done].
Qed.

Lemma unsubscribed_nowhere b t mem l :
  wf b →
  (∀ k, k ∉ reached (channels_of mem (th_channels t)) →
        th_callback t ∉ registered b k) →
  th_callback t ∉ deref (unsubscribe t mem b).1 l.
Proof.
  intros Hwf Hout. set (b' := (unsubscribe t mem b).1).
  assert (wf b') as Hwf' by by apply unsubscribe_wf.
  destruct (decide (l ∈ values b')) as [Hin|Hnin].
  - apply elem_of_values in Hin as [k Hk].
    assert (deref b' l = registered b' k) as ->.
    { unfold registered. by rewrite Hk. }
    unfold b'. rewrite registered_unsubscribe by done.
    case_decide; [|by apply Hout]. rewrite elem_of_Set_delete. tauto.
  - rewrite (wf_orphan _ Hwf'); [apply not_elem_of_nil|].
    intros k Hk. apply Hnin, elem_of_values. eauto.
Qed.

(** X8: once the unsubscribe function of a callback has been called, and
    the callback is registered under no channel other than those the
    function got through (all those its array holds, unless one is an
    inherited name, where the function raises), no queued closure calls
    the callback, whenever it was queued. *)
Theorem unsubscribed_callback_is_not_called (b : bus) (t : thunk)
    (mem : arrays) (q : list (task Data)) (log : list (call Data)) :
  wf b →
  (∀ k, k ∉ reached (channels_of mem (th_channels t)) →
        th_callback t ∉ registered b k) →
  ∀ x, x ∈ drain_queue behave (unsubscribe t mem b).1 q log →
       x ∈ log ∨ c_cb x ≠ th_callback t.
Proof.
  intros Hwf Hout x Hx.
  apply drain_queue_members in Hx as [?|(t' & _ & Hin)]; [by left|].
  right. intros Heq. rewrite Heq in Hin.
  destruct (t_cbs t') as [l|]; cbn [members] in Hin.
  - by eapply unsubscribed_nowhere.
  - by apply elem_of_nil in Hin.
Qed.

End Later.

(** ** The two ways of publishing *)

Section Modes.

Context {Data : Type}.
Variable behave : list (call Data) → cbid → string → Data → outcome.

(** X9: the call of [sendAndWait] itself, over the listeners in order:
    listeners without a callback are passed over; when all are, the
    publish resolves without a call; at the first listener that is an
    inherited name the publish is rejected without a call; at the first
    listener that has a callback the publish is not resolved when the call
    returns, and (when no callback raises) it has called the callbacks of
    that listener, and of that one only, and waits for their Promises with
    the later listeners still to visit. *)
Theorem sendAndWait_synchronous_part (b : bus) (c : string) (d : Data)
    (log : list (call Data)) :
  let listeners := _expandChannelsToListeners (_sep b) c in
  ((∀ l, l ∈ listeners → registered b l = []) → all_sets b listeners →
   sendAndWait behave b c d log = (log, Resolved)) ∧
  (∀ skipped l rest,
     listeners = skipped ++ l :: rest →
     (∀ k, k ∈ skipped → registered b k = []) → all_sets b skipped →
     (subs_at b l = Some Not_a_Set →
      sendAndWait behave b c d log = (log, Rejected)) ∧
     (registered b l ≠ [] →
      (sendAndWait behave b c d log).2 ≠ Resolved ∧
      ((∀ log cb c d, behave log cb c d ≠ Raised) →
       ∃ new, sendAndWait behave b c d log =
                (log ++ new, Awaiting c d (promises_of new) rest) ∧
              sig_of <$> new = level_plan b c d l))).
Proof.
  intros listeners. unfold sendAndWait. fold listeners. split.
  - intros Hempty Hall. rewrite <- (app_nil_r listeners). by rewrite levels_skip.
  - intros skipped l rest -> Hskip Hall. rewrite levels_skip by done. split.
    + intros Hs. by apply levels_cons_inherited.
    + intros Hne. split.
      * rewrite levels_cons_set
          by (intros Hs; by apply registered_inherited in Hs).
        destruct (registered b l) as [|cb cbs]; [done|].
        by destruct (call_all behave (cb :: cbs) c d log []) as [log' [ps|]].
      * intros Hnr. by apply levels_first_turn.
Qed.

Lemma units_listener b c (d : Data) t :
  t ∈ units b c d →
  ∃ l, l ∈ _expandChannelsToListeners (_sep b) c ∧
       members b (t_cbs t) = registered b l.
Proof.
  unfold units. rewrite list_elem_of_omap. intros (l & Hl & Ht).
  exists l. split; [done|].
  pose proof (unit_for_cases b c d l) as H. rewrite Ht in H.
  destruct H as (_ & _ & Hs & _). by rewrite registered_subs_at, Hs.
Qed.

(** X10: a publish calls only callbacks registered under one of the
    listeners of the expansion of its channel, in both delivery modes (the
    registry being left alone during the publish). *)
Theorem only_expansion_listeners_are_called (b : bus) (c : string) (d : Data) :
  (∀ store sched x,
     undisturbed sched →
     x ∈ r_log (publish_and_wait behave b c d store sched) →
     ∃ l, l ∈ _expandChannelsToListeners (_sep b) c ∧ c_cb x ∈ registered b l) ∧
  (∀ log x,
     x ∈ w_log (drain behave (sendLater c d (World b [] log))) →
     x ∈ log ∨
     ∃ l, l ∈ _expandChannelsToListeners (_sep b) c ∧ c_cb x ∈ registered b l).
Proof.
  split.
  - intros store sched x Hq Hx.
    destruct (inv_publish behave b c d store sched Hq) as (_ & [k Hk] & _).
    assert (sig_of x ∈ plan b c d (_expandChannelsToListeners (_sep b) c)) as Hin.
    { rewrite Hk. apply elem_of_app. left. apply list_elem_of_fmap. eauto. }
    unfold plan in Hin. apply list_elem_of_bind in Hin as (l & Hin & Hl).
    unfold level_plan in Hin. apply list_elem_of_fmap in Hin as (cb & Heq & Hcb).
    exists l. split; [done|]. unfold sig_of in Heq. by injection Heq as -> _ _.
  - intros log x. unfold drain, sendLater. cbn [w_bus w_queue w_log].
    rewrite later_levels_spec, app_nil_l. fold (units b c d). intros Hx.
    apply drain_queue_members in Hx as [?|(t & Ht & Hin)]; [by left|]. right.
    apply units_listener in Ht as (l & Hl & Heq). exists l. by rewrite <- Heq.
Qed.

Lemma run_resolved_log sched (s : run_state Data) :
  r_act s = Resolved → r_log (run behave sched s) = r_log s.
Proof.
  revert s. induction sched as [|t sched IH]; intros s Hs; [done|].
  rewrite run_cons, IH.
  - destruct s as [b log store a]. simpl in *. subst a. by destruct t.
  - destruct s as [b log store a]. simpl in *. subst a. by destruct t.
Qed.

Lemma run_levels_log (store : gmap pid bool) b c d ls log n :
  (∀ log cb c d, behave log cb c d ≠ Raised) →
  (∀ log cb c d p, behave log cb c d = Deferred p → store !! p = Some true) →
  (length ls ≤ n)%nat →
  r_log (run behave (replicate n Wake)
           (RunState b (levels behave b c d ls log).1 store
                       (levels behave b c d ls log).2)) =
  drain_queue behave b (omap (unit_for b c d) ls) log.
Proof.
  intros Hnr Hdef. revert log n. induction ls as [|l ls IH]; intros log n Hn.
  - simpl. by rewrite run_resolved_log.
  - rewrite omap_cons_match.
    destruct (decide (subs_at b l = Some Not_a_Set)) as [Hs|Hs].
    { rewrite levels_cons_inherited by done. unfold unit_for. rewrite Hs.
      cbn [drain_queue run_task call_each t_cbs fst snd].
      by destruct (run_rejected behave (replicate n Wake)
                     (RunState b log store Rejected) eq_refl) as [_ ->]. }
    rewrite levels_cons_set by done.
    destruct (registered b l) as [|cb cbs] eqn:Hreg.
    + rewrite unit_for_empty by done. apply IH. simpl in Hn. lia.
    + assert (∃ r, _subs b !! l = Some r ∧ deref b r = cb :: cbs) as (r & Hr & Hd).
      { unfold registered in Hreg. destruct (_subs b !! l); [eauto|done]. }
      unfold unit_for. rewrite (proj2 (subs_at_Set b l r) Hr), Hd.
      cbn [drain_queue]. unfold run_task, call_each.
      cbn [t_cbs t_channel t_data]. rewrite Hd.
      destruct (call_all_succeeds behave store (cb :: cbs) c d log [] Hnr Hdef)
        as (ps & Hps & Hful); [intros p Hp; by apply elem_of_nil in Hp|].
      destruct (call_all behave (cb :: cbs) c d log []) as [log' res].
      cbn [snd] in Hps. subst res. cbn [fst snd].
      destruct n as [|n]; [simpl in Hn; lia|].
      cbn [replicate]. rewrite run_cons.
      cbn [step resume r_bus r_log r_store r_act].
      rewrite (proj2 (promise_all_fulfilled store ps) Hful).
      specialize (IH log' n).
      destruct (levels behave b c d ls log') as [log'' a]. cbn [fst snd] in IH.
      apply IH. simpl in Hn. lia.
Qed.

(** X11: when no callback raises and the Promises they return are
    fulfilled, a publish by [sendAndWait] given enough turns and a publish
    by [sendLater] followed by the run of the queue make the same calls in
    the same order. *)
Theorem delivery_modes_agree (store : gmap pid bool) (b : bus) (c : string)
    (d : Data) (n : nat) :
  (∀ log cb c d, behave log cb c d ≠ Raised) →
  (∀ log cb c d p, behave log cb c d = Deferred p → store !! p = Some true) →
  (length (_expandChannelsToListeners (_sep b) c) ≤ n)%nat →
  r_log (publish_and_wait behave b c d store (replicate n Wake)) =
  w_log (drain behave (sendLater c d (World b [] []))).
Proof.
  intros Hnr Hdef Hn. unfold publish_and_wait, sendAndWait, drain, sendLater.
  cbn [w_bus w_queue w_log]. rewrite later_levels_spec, app_nil_l.
  pose proof (run_levels_log store b c d
                (_expandChannelsToListeners (_sep b) c) [] n Hnr Hdef Hn) as H.
  by destruct (levels behave b c d _ []) as [log a].
Qed.

Lemma step_bus (s : run_state Data) t :
  is_client t = false → r_bus (step behave s t) = r_bus s.
Proof.
  destruct s as [b log store a]. destruct t as [p ok| |mem m]; [done| |done].
  intros _. simpl. by destruct (resume behave b store log a).
Qed.

Lemma step_calls_registered (s : run_state Data) t x :
  is_client t = false → x ∈ r_log (step behave s t) →
  x ∈ r_log s ∨ ∃ l, c_cb x ∈ registered (r_bus s) l.
Proof.
  destruct s as [b log store a]. destruct t as [p ok| |mem m]; [by left| |done].
  intros _. cbn [step r_bus r_log r_store r_act].
  destruct a as [c d ps rest| |]; cbn [resume]; [|by left|by left].
  destruct (promise_all store ps); [by left| |by left].
  pose proof (levels_calls_registered behave b c d rest log x) as H.
  destruct (levels behave b c d rest log) as [log' a']. cbn [fst r_log] in *.
  intros Hx. destruct (H Hx) as [?|(l & _ & ?)]; eauto.
Qed.

Lemma run_calls_registered sched (s : run_state Data) x :
  undisturbed sched → x ∈ r_log (run behave sched s) →
  x ∈ r_log s ∨ ∃ l, c_cb x ∈ registered (r_bus s) l.
Proof.
  revert s. induction sched as [|t sched IH]; intros s Hq Hx; [by left|].
  apply undisturbed_cons in Hq as [Ht Hq]. rewrite run_cons in Hx.
  destruct (IH _ Hq Hx) as [Hx'|Hx'].
  - by apply step_calls_registered in Hx'.
  - right. by rewrite step_bus in Hx'.
Qed.

Lemma run_wf sched (s : run_state Data) :
  wf (r_bus s) → wf (r_bus (run behave sched s)).
Proof.
  revert s. induction sched as [|t sched IH]; intros s Hwf; [done|].
  rewrite run_cons. apply IH. destruct s as [b log store a].
  destruct t as [p ok| |mem m]; simpl in *; [done| |by apply mutate_wf].
  by destruct (resume behave b store log a).
Qed.

Lemma publish_wf b c d store sched :
  wf b → wf (r_bus (publish_and_wait behave b c d store sched)).
Proof.
  intros Hwf. unfold publish_and_wait.
  destruct (sendAndWait behave b c d []) as [log a]. by apply run_wf.
Qed.

(** X12: when other code calls the unsubscribe function of a callback
    while a publish by [sendAndWait] is suspended, and the callback is
    registered under no channel other than those the function gets
    through, the publish never calls it afterwards. *)
Theorem unsubscribed_during_publish_is_skipped (b : bus) (c : string) (d : Data)
    (store : gmap pid bool) (sched sched' : list tick)
    (t : thunk) (mem : arrays) :
  wf b →
  let s := publish_and_wait behave b c d store sched in
  (∀ k, k ∉ reached (channels_of mem (th_channels t)) →
        th_callback t ∉ registered (r_bus s) k) →
  undisturbed sched' →
  ∀ x, x ∈ r_log (run behave (Client mem (Unsubscribe t) :: sched') s) →
       x ∈ r_log s ∨ c_cb x ≠ th_callback t.
Proof.
  intros Hwf s Hout Hq x Hx. rewrite run_cons in Hx.
  pose proof (publish_wf b c d store sched Hwf) as Hwfs. fold s in Hwfs.
  clearbody s. destruct (run_calls_registered sched' _ x Hq Hx) as [Hx'|(l & Hl)].
  - left. by destruct s.
  - right. intros Heq. rewrite Heq in Hl. destruct s as [b0 log st a].
    cbn [step r_bus mutate] in Hl. cbn [r_bus] in *.
    rewrite registered_unsubscribe in Hl by done.
    case_decide.
    + apply elem_of_Set_delete in Hl. tauto.
    + by eapply Hout.
Qed.

End Modes.

(** ** Channels at the edges *)

Lemma first_split_empty sep rest :
  first_split sep (sep +:+ rest) EmptyString.
Proof. split; [by exists rest|]. intros; simpl; lia. Qed.

(** X16: the empty channel expands to itself and "*"; a channel that
    starts with the separator has the empty channel as its base. *)
Theorem expansion_of_edge_channels (sep rest : string) :
  sep ≠ EmptyString →
  _expandChannelsToListeners sep EmptyString = [EmptyString; "*"] ∧
  _expandChannelsToListeners sep (sep +:+ rest) =
    [sep +:+ rest; EmptyString; "*"].
Proof.
  intros Hsep. split.
  - apply expand_plain; [done|]. intros (p & r & Heq).
    destruct p; [|done]. destruct sep; [done|]. by unapp.
  - apply expand_base, first_split_empty.
Qed.

(** ** Progress of a publish *)

Section Progress.

Context {Data : Type}.
Variable behave : list (call Data) → cbid → string → Data → outcome.

Lemma undisturbed_wakes n : undisturbed (replicate n Wake).
Proof. unfold undisturbed. induction n as [|n IH]; [done|]. simpl. done. Qed.

(** A listener that is an inherited name stops the publish. *)
Lemma levels_stops (store : gmap pid bool) b c d ls log :
  (∀ log cb c d, behave log cb c d ≠ Raised) →
  (∀ log cb c d p, behave log cb c d = Deferred p → store !! p = Some true) →
  ¬ all_sets b ls →
  (levels behave b c d ls log).2 = Rejected ∨
  ∃ ps rest, (levels behave b c d ls log).2 = Awaiting c d ps rest ∧
             length rest < length ls ∧ ¬ all_sets b rest ∧
             ∀ p, p ∈ ps → store !! p = Some true.
Proof.
  intros Hnr Hdef. induction ls as [|l ls IH]; intros Hbad.
  { destruct Hbad. intros l Hl. by apply elem_of_nil in Hl. }
  destruct (decide (subs_at b l = Some Not_a_Set)) as [Hs|Hs].
  { left. by rewrite levels_cons_inherited. }
  assert (¬ all_sets b ls) as Hbad'.
  { intros Hall. apply Hbad. intros k Hk.
    apply elem_of_cons in Hk as [->|Hk]; [done|by apply Hall]. }
  rewrite levels_cons_set by done.
  destruct (registered b l) as [|cb cbs].
  - destruct (IH Hbad') as [?|(ps & rest & ? & ? & ? & ?)]; [by left|].
    right. exists ps, rest. repeat split; try done. simpl. lia.
  - destruct (call_all_succeeds behave store (cb :: cbs) c d log [] Hnr Hdef)
      as (ps' & Hps' & Hful); [intros p Hp; by apply elem_of_nil in Hp|].
    destruct (call_all behave (cb :: cbs) c d log []) as [log' r].
    cbn [snd] in Hps'. subst r. right. exists ps', ls.
    repeat split; try done. simpl. lia.
Qed.

Lemma run_wakes_stops (store : gmap pid bool) b c d n ps rest log :
  (∀ log cb c d, behave log cb c d ≠ Raised) →
  (∀ log cb c d p, behave log cb c d = Deferred p → store !! p = Some true) →
  (∀ p, p ∈ ps → store !! p = Some true) →
  ¬ all_sets b rest →
  length rest < n →
  r_act (run behave (replicate n Wake)
           (RunState b log store (Awaiting c d ps rest))) = Rejected.
Proof.
  intros Hnr Hdef. revert ps rest log.
  induction n as [|n IH]; intros ps rest log Hps Hbad Hlen; [lia|].
  unfold run. cbn [replicate foldl step resume r_bus r_act r_log r_store].
  rewrite (proj2 (promise_all_fulfilled store ps) Hps).
  destruct (levels_stops store b c d rest log Hnr Hdef Hbad)
    as [Hr|(ps' & rest' & Hr & Hlen' & Hbad' & Hps')];
    destruct (levels behave b c d rest log) as [log' a']; cbn [snd] in Hr; subst a'.
  - fold (run behave (replicate n Wake)).
    by apply run_rejected.
  - apply IH; [done|done|lia].
Qed.

Lemma publish_stops (store : gmap pid bool) b c d n :
  (∀ log cb c d, behave log cb c d ≠ Raised) →
  (∀ log cb c d p, behave log cb c d = Deferred p → store !! p = Some true) →
  ¬ all_sets b (_expandChannelsToListeners (_sep b) c) →
  (length (_expandChannelsToListeners (_sep b) c) ≤ n)%nat →
  r_act (publish_and_wait behave b c d store (replicate n Wake)) = Rejected.
Proof.
  intros Hnr Hdef Hbad Hn. unfold publish_and_wait, sendAndWait.
  destruct (levels_stops store b c d (_expandChannelsToListeners (_sep b) c) []
              Hnr Hdef Hbad)
    as [Hr|(ps' & rest' & Hr & Hlen' & Hbad' & Hps')];
    destruct (levels behave b c d _ []) as [log' a']; cbn [snd] in Hr; subst a'.
  - by apply run_rejected.
  - apply run_wakes_stops; try done. lia.
Qed.

(** X13: when no callback raises and the Promises they return are
    fulfilled, three turns of the event loop are enough for a publish by
    [sendAndWait] to settle: it is resolved, having called every callback
    of every listener, when no listener is an inherited name, and rejected
    when one is. *)
Theorem successful_publish_resolves (store : gmap pid bool) (b : bus)
    (c : string) (d : Data) (n : nat) :
  (∀ log cb c d, behave log cb c d ≠ Raised) →
  (∀ log cb c d p, behave log cb c d = Deferred p → store !! p = Some true) →
  (3 ≤ n)%nat →
  let listeners := _expandChannelsToListeners (_sep b) c in
  let s := publish_and_wait behave b c d store (replicate n Wake) in
  (all_sets b listeners →
   r_act s = Resolved ∧ sig_of <$> r_log s = plan b c d listeners) ∧
  (¬ all_sets b listeners → r_act s = Rejected).
Proof.
  intros Hnr Hdef Hn listeners s.
  assert (length listeners ≤ n)%nat as Hlen
    by (etrans; [apply expand_length|done]).
  split.
  - intros Hall. assert (r_act s = Resolved) as Hres by by apply publish_resolves.
    split; [done|]. apply publish_resolved; [apply undisturbed_wakes|done].
  - intros Hbad. by apply publish_stops.
Qed.

Lemma settle_other p q ok (store : gmap pid bool) :
  p ≠ q → store !! p = None → settle q ok store !! p = None.
Proof.
  intros Hne Hp. unfold settle. destruct (store !! q); [done|].
  by rewrite lookup_insert_ne.
Qed.

Lemma stalled_step c d ps rest p (s : run_state Data) t :
  (r_act s = Awaiting c d ps rest ∧ p ∈ ps ∧ r_store s !! p = None) ∨
    r_act s = Rejected →
  (∀ ok, t ≠ Settle p ok) →
  ((r_act (step behave s t) = Awaiting c d ps rest ∧ p ∈ ps ∧
    r_store (step behave s t) !! p = None) ∨
   r_act (step behave s t) = Rejected) ∧
  r_log (step behave s t) = r_log s.
Proof.
  intros [(Ha & Hp & Hs)|Hrej] Ht.
  - destruct s as [b log store a]. cbn [r_act r_store r_log] in *. subst a.
    destruct t as [q ok| |mem m].
    + split; [|done]. left. cbn [step r_act r_store]. repeat split; try done.
      apply settle_other; [|done]. intros ->. by eapply Ht.
    + cbn [step resume r_bus r_act r_store r_log].
      destruct (promise_all store ps) eqn:Hall.
      * split; [|done]. by left.
      * exfalso. pose proof (proj1 (promise_all_fulfilled _ _) Hall p Hp).
        congruence.
      * split; [|done]. by right.
    + split; [|done]. by left.
  - destruct (step_rejected behave s t Hrej) as [? ?]. split; [by right|done].
Qed.

(** X14: while one of the Promises a publish by [sendAndWait] waits for
    is not settled, the publish makes no call and does not resolve,
    whatever else happens. *)
Theorem pending_promise_stalls_the_publish (b : bus) (c : string) (d : Data)
    (store : gmap pid bool) (sched sched' : list tick)
    (c' : string) (d' : Data) (ps : list pid) (rest : list string) (p : pid) :
  let s := publish_and_wait behave b c d store sched in
  r_act s = Awaiting c' d' ps rest → p ∈ ps → r_store s !! p = None →
  (∀ ok, Settle p ok ∉ sched') →
  r_log (run behave sched' s) = r_log s ∧
  r_act (run behave sched' s) ≠ Resolved.
Proof.
  intros s Ha Hp Hs Hno. clearbody s.
  assert ((r_act s = Awaiting c' d' ps rest ∧ p ∈ ps ∧ r_store s !! p = None) ∨
          r_act s = Rejected) as Hinv by (left; done).
  clear Ha Hs. revert s Hinv.
  induction sched' as [|t sched' IH]; intros s Hinv.
  - split; [done|]. simpl. destruct Hinv as [(-> & _)| ->]; done.
  - rewrite run_cons.
    destruct (stalled_step c' d' ps rest p s t Hinv) as [Hinv' Hlog].
    { intros ok ->. apply (Hno ok). left. }
    destruct (IH (λ ok H, Hno ok (list_elem_of_further _ _ _ H)) _ Hinv') as [Hl Ha].
    split; [congruence|done].
Qed.

End Progress.

(** ** A channel emptied by an unsubscribe function *)

Lemma subscribe1_let_go l cb b k b' :
  let_go l b → subscribe1 cb b k = Some b' → let_go l b'.
Proof.
  intros (Hwf & Hl & Hno) Hs. split; [by eapply subscribe1_wf|].
  unfold subscribe1, subs_at in Hs.
  destruct (_subs b !! k) as [r|] eqn:Hr;
    [|destruct (inherited k); [done|]]; injection Hs as <-; simpl.
  - done.
  - split; [lia|]. intros k'. rewrite lookup_insert.
    case_decide; [intros [= ?]; lia | apply Hno].
Qed.

Lemma unsubscribe1_let_go l cb b k b' :
  let_go l b → unsubscribe1 cb b k = Some b' → let_go l b'.
Proof.
  intros (Hwf & Hl & Hno) Hs. split; [by eapply unsubscribe1_wf|].
  rewrite (next_ref_unsubscribe1 _ _ _ _ Hs). split; [done|].
  intros k' Hk'. eapply Hno, subs_unsubscribe1; eauto.
Qed.

Lemma mutate_all_let_go l ms b : let_go l b → let_go l (mutate_all b ms).
Proof.
  apply mutate_all_preserves;
    eauto using subscribe1_let_go, unsubscribe1_let_go.
  intros b' (Hwf & Hl & _). split; [by apply removeAll_wf|].
  split; [done|]. simpl. intros k. by rewrite lookup_empty.
Qed.

Lemma subs_unsubscribe t mem b k' l :
  _subs (unsubscribe t mem b).1 !! k' = Some l → _subs b !! k' = Some l.
Proof.
  unfold unsubscribe.
  apply (unsubscribe_each_preserves
           (λ b', _subs b' !! k' = Some l → _subs b !! k' = Some l));
    [|done].
  intros b1 k b2 H1 Hs H2. eapply H1, subs_unsubscribe1; eauto.
Qed.

Lemma next_ref_unsubscribe t mem b :
  next_ref (unsubscribe t mem b).1 = next_ref b.
Proof.
  unfold unsubscribe.
  apply (unsubscribe_each_preserves (λ b', next_ref b' = next_ref b)); [|done].
  intros b1 k b2 H1 Hs. by rewrite (next_ref_unsubscribe1 _ _ _ _ Hs).
Qed.

(** X15: once an unsubscribe function has emptied a channel, the Set
    object the channel had stays empty whatever is subscribed afterwards,
    so a closure queued for it before calls nothing. *)
Theorem emptied_channel_units_stay_silent {Data : Type}
    (behave : list (call Data) → cbid → string → Data → outcome)
    (b : bus) (t : thunk) (mem : arrays) (k : string) (l : loc)
    (ms : list (arrays * mutation))
    (c : string) (d : Data) (log : list (call Data)) :
  wf b → _subs b !! k = Some l →
  registered (unsubscribe t mem b).1 k = [] →
  let b' := mutate_all (unsubscribe t mem b).1 ms in
  deref b' l = [] ∧
  run_task behave b' (Task (A_Set l) c d) log = (log, true).
Proof.
  intros Hwf Hk Hempty b'.
  assert (deref b' l = []) as Hd.
  { assert (let_go l b') as (Hwf' & _ & Hno).
    { apply mutate_all_let_go. split; [by apply unsubscribe_wf|]. split.
      - rewrite next_ref_unsubscribe. by eapply (wf_next _ Hwf).
      - intros k' Hk'.
        pose proof (subs_unsubscribe _ _ _ _ _ Hk') as Hk0.
        assert (k' = k) as -> by (by eapply (wf_inj _ Hwf)).
        pose proof (wf_nonempty _ (unsubscribe_wf t mem b Hwf) _ _ Hk') as Hne.
        unfold registered in Hempty. by rewrite Hk' in Hempty. }
    by apply (wf_orphan _ Hwf'). }
  split; [done|]. unfold run_task, call_each. cbn [t_cbs t_channel t_data].
  by rewrite Hd.
Qed.

(** ** Names inherited from [Object.prototype], in general *)

(** X17: a name that the plain object [_subs] inherits from
    [Object.prototype] cannot be subscribed to or published on: [on]
    raises and leaves the bus as it was, the registry never has a callback
    under the name, a publish on it by [sendAndWait] is rejected at its
    call without a call of a callback, and the closure [sendLater] queues
    for it raises before any callback is called, so that the run of the
    queue ends there. *)
Theorem inherited_names_are_not_served {Data : Type}
    (behave : list (call Data) → cbid → string → Data → outcome)
    (b : bus) (k : string) (cb : cbid) (mem : arrays) :
  wf b → inherited k = true →
  on (inl k) cb mem b = (b, None) ∧
  unsubscribe (Thunk (inl k) cb) mem b = (b, false) ∧
  registered b k = [] ∧
  (∀ d log, sendAndWait behave b k d log = (log, Rejected)) ∧
  (∀ (d : Data) q log, ∃ later,
     w_queue (sendLater k d (World b q log)) = q ++ Task Not_a_Set k d :: later) ∧
  (∀ d log, w_log (drain behave (sendLater k d (World b [] log))) = log).
Proof.
  intros Hwf Hk.
  assert (subs_at b k = Some Not_a_Set) as Hs by by apply subs_at_inherited.
  assert (∀ d : Data, ∃ later,
            omap (unit_for b k d) (_expandChannelsToListeners (_sep b) k) =
            Task Not_a_Set k d :: later) as Hunits.
  { intros d. destruct (expand_head (_sep b) k) as [rest ->].
    rewrite omap_cons_match. unfold unit_for at 1. rewrite Hs. by eexists. }
  split; [|split; [|split; [|split; [|split]]]].
  - unfold on, channels_of, subscribe_each, subscribe1. by rewrite Hs.
  - unfold unsubscribe, channels_of, unsubscribe_each, unsubscribe1.
    cbn [th_channels th_callback]. by rewrite Hs.
  - by apply registered_inherited.
  - intros d log. unfold sendAndWait.
    destruct (expand_head (_sep b) k) as [rest ->].
    by apply levels_cons_inherited.
  - intros d q log. destruct (Hunits d) as [later Hl]. exists later.
    unfold sendLater. cbn [w_bus w_queue]. by rewrite later_levels_spec, Hl.
  - intros d log. destruct (Hunits d) as [later Hl].
    unfold drain, sendLater. cbn [w_bus w_queue w_log].
    by rewrite later_levels_spec, Hl.
Qed.

(** ** The further properties on the scenarios *)

Lemma registered_new sep k : registered (new_Superbus sep) k = [].
Proof. unfold registered. simpl. by rewrite lookup_empty. Qed.

(** The callbacks of every channel of the bus of the test "channels with
    ids". *)
Lemma ids_bus_registered k :
  registered ids_bus k =
  if decide (k = "changed") then [1]
  else if decide (k = "changed:12345") then [2]
  else if decide (k = "*") then [3] else [].
Proof.
  unfold ids_bus. cbv zeta.
  rewrite registered_on by (repeat apply on_wf; apply wf_new).
  rewrite registered_on by (repeat apply on_wf; apply wf_new).
  rewrite registered_on by apply wf_new.
  rewrite registered_new.
  change (reached (channels_of no_arrays (inl "*"))) with ["*"].
  change (reached (channels_of no_arrays (inl "changed:12345")))
    with ["changed:12345"].
  change (reached (channels_of no_arrays (inl "changed"))) with ["changed"].
  destruct (decide (k = "changed")) as [->|H1]; [reflexivity|].
  destruct (decide (k = "changed:12345")) as [->|H2]; [reflexivity|].
  destruct (decide (k = "*")) as [->|H3]; [reflexivity|].
  rewrite !decide_False by (rewrite list_elem_of_singleton; congruence).
  reflexivity.
Qed.

Lemma plain_never_raises log cb c d : plain log cb c d ≠ Raised.
Proof. discriminate. Qed.

Lemma plain_never_defers (store : gmap pid bool) log cb c d p :
  plain log cb c d = Deferred p → store !! p = Some true.
Proof. discriminate. Qed.

Lemma ids_listeners_are_sets :
  all_sets ids_bus (_expandChannelsToListeners (_sep ids_bus) "changed:12345").
Proof.
  apply all_sets_Forall. vm_compute.
  repeat (constructor; [discriminate|]). constructor.
Qed.

Lemma base_is_not_expanded_again_witness :
  ":" ≠ EmptyString ∧ first_split ":" "changed:a:b" "changed" ∧
  _expandChannelsToListeners ":" "changed" = ["changed"; "*"].
Proof.
  assert (Hsep : ":" ≠ EmptyString) by discriminate.
  assert (Hfs : first_split ":" "changed:a:b" "changed")
    by exact (proj1 (index0_Some ":" "changed:a:b" 7 eq_refl)).
  split; [exact Hsep|]. split; [exact Hfs|].
  exact (proj1 (base_is_not_expanded_again ":" "changed:a:b" "changed" Hsep Hfs)).
Defined.

Lemma subscribing_twice_is_subscribing_once_witness :
  wf ids_bus ∧
  (on (inl "changed") 1 no_arrays (on (inl "changed") 1 no_arrays ids_bus).1).1 =
  (on (inl "changed") 1 no_arrays ids_bus).1.
Proof.
  split; [exact ids_bus_wf|].
  exact (proj1 (subscribing_twice_is_subscribing_once (inl "changed") 1
                  no_arrays ids_bus ids_bus_wf)).
Defined.

Lemma callbacks_enumerate_in_subscription_order_witness :
  wf (new_Superbus ":") ∧ inherited "event" = false ∧ NoDup [1; 2; 3] ∧
  registered (mutate_all (new_Superbus ":")
                [(no_arrays, Subscribe (inl "event") 1);
                 (no_arrays, Subscribe (inl "event") 2);
                 (no_arrays, Subscribe (inl "event") 3)]) "event" = [1; 2; 3] ∧
  c_cb <$> (sendAndWait plain
              (mutate_all (new_Superbus ":")
                 [(no_arrays, Subscribe (inl "event") 1);
                  (no_arrays, Subscribe (inl "event") 2);
                  (no_arrays, Subscribe (inl "event") 3)]) "event" 5 []).1
    = [1; 2; 3].
Proof.
  assert (Hnd : NoDup [1; 2; 3]).
  { apply (bool_decide_unpack (NoDup [1; 2; 3])). vm_compute. exact I. }
  assert (Hnew : ∀ cb : cbid, cb ∈ [1; 2; 3] →
                 cb ∉ registered (new_Superbus ":") "event").
  { intros cb _. rewrite registered_new. apply not_elem_of_nil. }
  assert (Hch : inherited "event" = false) by (vm_compute; reflexivity).
  split; [apply wf_new|]. split; [exact Hch|]. split; [exact Hnd|].
  destruct (callbacks_enumerate_in_subscription_order plain no_arrays "event"
              [1; 2; 3] (new_Superbus ":") (wf_new ":") Hch Hnd Hnew)
    as (Hreg & _ & Hcalls).
  split; [exact Hreg|].
  apply (Hcalls plain_never_raises); discriminate.
Defined.


Lemma stale_units_stay_silent_witness :
  wf ids_bus ∧
  w_queue (sendLater "changed:12345" 5 (World ids_bus [] [])) ≠ [] ∧
  w_log (drain plain
           (World (mutate_all
                     (removeAllSubscriptions
                        (w_bus (sendLater "changed:12345" 5 (World ids_bus [] []))))
                     [(no_arrays, Subscribe (inl "changed") 8)])
                  (w_queue (sendLater "changed:12345" 5 (World ids_bus [] [])))
                  (w_log (sendLater "changed:12345" 5 (World ids_bus [] []))))) = [].
Proof.
  split; [exact ids_bus_wf|]. split; [vm_compute; discriminate|].
  exact (stale_units_stay_silent plain "changed:12345" 5 (World ids_bus [] [])
           [(no_arrays, Subscribe (inl "changed") 8)] ids_bus_wf (Forall_nil_2 _)).
Defined.

Lemma late_subscriber_hears_queued_message_witness :
  wf ids_bus ∧
  "changed" ∈ _expandChannelsToListeners (_sep ids_bus) "changed:12345" ∧
  registered ids_bus "changed" ≠ [] ∧
  ∃ x, x ∈ w_log (drain plain
                    (w_on (inl "changed") 9 no_arrays
                       (sendLater "changed:12345" 5 (World ids_bus [] []))).1) ∧
       sig_of x = (9, "changed:12345", 5).
Proof.
  assert (Hin : "changed" ∈ _expandChannelsToListeners (_sep ids_bus) "changed:12345").
  { vm_compute. apply list_elem_of_further, list_elem_of_here. }
  assert (Hne : registered ids_bus "changed" ≠ []).
  { rewrite ids_bus_registered. discriminate. }
  split; [exact ids_bus_wf|]. split; [exact Hin|]. split; [exact Hne|].
  exact (proj2 (late_subscriber_hears_queued_message plain ids_bus
                  "changed:12345" 5 "changed" 9 no_arrays)
           ids_bus_wf plain_never_raises ids_listeners_are_sets Hin Hne []).
Defined.

Lemma unsubscribed_callback_is_not_called_witness :
  wf ids_bus ∧ 1 ∈ registered ids_bus "changed" ∧
  Forall (λ x, c_cb x ≠ 1)
    (drain_queue plain (unsubscribe (Thunk (inl "changed") 1) no_arrays ids_bus).1
       (w_queue (sendLater "changed:12345" 5 (World ids_bus [] []))) []).
Proof.
  assert (Hout : ∀ k, k ∉ reached (channels_of no_arrays (inl "changed")) →
                      1 ∉ registered ids_bus k).
  { intros k Hk. rewrite ids_bus_registered.
    change (reached (channels_of no_arrays (inl "changed"))) with ["changed"] in Hk.
    rewrite list_elem_of_singleton in Hk.
    repeat case_decide; subst; try done; intros Hin;
      repeat (apply elem_of_cons in Hin as [Hin|Hin]; [discriminate|]);
      by apply elem_of_nil in Hin. }
  split; [exact ids_bus_wf|].
  split; [rewrite ids_bus_registered; simpl; apply list_elem_of_here|].
  apply Forall_forall. intros x Hx.
  destruct (unsubscribed_callback_is_not_called plain ids_bus
              (Thunk (inl "changed") 1) no_arrays
              (w_queue (sendLater "changed:12345" 5 (World ids_bus [] []))) []
              ids_bus_wf Hout x Hx) as [Hnil|Hcb]; [|exact Hcb].
  by apply elem_of_nil in Hnil.
Defined.

Lemma sendAndWait_synchronous_part_witness :
  registered ids_bus "zzz" = [] ∧ registered ids_bus "*" ≠ [] ∧
  (sendAndWait plain ids_bus "zzz" 5 []).2 ≠ Resolved.
Proof.
  assert (Hz : registered ids_bus "zzz" = [])
    by (rewrite ids_bus_registered; reflexivity).
  assert (Hs : registered ids_bus "*" ≠ [])
    by (rewrite ids_bus_registered; discriminate).
  split; [exact Hz|]. split; [exact Hs|].
  refine (proj1 (proj2 (proj2 (sendAndWait_synchronous_part plain ids_bus "zzz" 5 [])
                          ["zzz"] "*" [] eq_refl _ _) Hs)).
  - intros k Hk. apply list_elem_of_singleton in Hk. by subst k.
  - apply all_sets_Forall. vm_compute. constructor; [discriminate|constructor].
Defined.

Lemma only_expansion_listeners_are_called_witness :
  undisturbed [Wake; Wake; Wake] ∧
  Forall (λ x, ∃ l, l ∈ _expandChannelsToListeners (_sep ids_bus) "changed:12345" ∧
                    c_cb x ∈ registered ids_bus l)
    (r_log (publish_and_wait plain ids_bus "changed:12345" 5 ∅ [Wake; Wake; Wake])).
Proof.
  assert (Hu : undisturbed [Wake; Wake; Wake]) by (vm_compute; reflexivity).
  split; [exact Hu|].
  apply Forall_forall. intros x Hx.
  exact (proj1 (only_expansion_listeners_are_called plain ids_bus "changed:12345" 5)
           ∅ [Wake; Wake; Wake] x Hu Hx).
Defined.

Lemma delivery_modes_agree_witness :
  (length (_expandChannelsToListeners (_sep ids_bus) "changed:12345") ≤ 3)%nat ∧
  r_log (publish_and_wait plain ids_bus "changed:12345" 5 ∅ (replicate 3 Wake)) =
  w_log (drain plain (sendLater "changed:12345" 5 (World ids_bus [] []))).
Proof.
  assert (Hlen : (length (_expandChannelsToListeners (_sep ids_bus) "changed:12345")
                  ≤ 3)%nat) by (vm_compute; lia).
  split; [exact Hlen|].
  exact (delivery_modes_agree plain ∅ ids_bus "changed:12345" 5 3
           plain_never_raises (plain_never_defers ∅) Hlen).
Defined.

Lemma unsubscribed_during_publish_is_skipped_witness :
  wf ids_bus ∧ undisturbed [Wake; Wake; Wake] ∧
  3 ∈ registered ids_bus "*" ∧
  Forall (λ x, x ∈ r_log (publish_and_wait plain ids_bus "changed:12345" 5 ∅ [])
               ∨ c_cb x ≠ 3)
    (r_log (run plain (Client no_arrays (Unsubscribe (Thunk (inl "*") 3))
                       :: [Wake; Wake; Wake])
              (publish_and_wait plain ids_bus "changed:12345" 5 ∅ []))).
Proof.
  assert (Hu : undisturbed [Wake; Wake; Wake]) by (vm_compute; reflexivity).
  assert (Hout : ∀ k, k ∉ reached (channels_of no_arrays (inl "*")) →
            3 ∉ registered
                  (r_bus (publish_and_wait plain ids_bus "changed:12345" 5 ∅ [])) k).
  { intros k Hk. change (3 ∉ registered ids_bus k). rewrite ids_bus_registered.
    change (reached (channels_of no_arrays (inl "*"))) with ["*"] in Hk.
    rewrite list_elem_of_singleton in Hk.
    repeat case_decide; subst; try done; intros Hin;
      repeat (apply elem_of_cons in Hin as [Hin|Hin]; [discriminate|]);
      by apply elem_of_nil in Hin. }
  split; [exact ids_bus_wf|]. split; [exact Hu|].
  split; [rewrite ids_bus_registered; simpl; apply list_elem_of_here|].
  apply Forall_forall. intros x Hx.
  exact (unsubscribed_during_publish_is_skipped plain ids_bus "changed:12345" 5 ∅
           [] [Wake; Wake; Wake] (Thunk (inl "*") 3) no_arrays ids_bus_wf
           Hout Hu x Hx).
Defined.

Lemma expansion_of_edge_channels_witness :
  ":" ≠ EmptyString ∧
  _expandChannelsToListeners ":" EmptyString = [EmptyString; "*"] ∧
  _expandChannelsToListeners ":" ":abc" = [":abc"; EmptyString; "*"].
Proof.
  assert (Hsep : ":" ≠ EmptyString) by discriminate.
  split; [exact Hsep|].
  exact (expansion_of_edge_channels ":" "abc" Hsep).
Defined.

Lemma successful_publish_resolves_witness :
  (3 ≤ 3)%nat ∧
  all_sets ids_bus (_expandChannelsToListeners (_sep ids_bus) "changed:12345") ∧
  r_act (publish_and_wait plain ids_bus "changed:12345" 5 ∅ (replicate 3 Wake)) =
    Resolved ∧
  sig_of <$> r_log (publish_and_wait plain ids_bus "changed:12345" 5 ∅
                      (replicate 3 Wake)) =
    plan ids_bus "changed:12345" 5
      (_expandChannelsToListeners (_sep ids_bus) "changed:12345").
Proof.
  assert (H3 : (3 ≤ 3)%nat) by lia.
  split; [exact H3|]. split; [exact ids_listeners_are_sets|].
  exact (proj1 (successful_publish_resolves plain ∅ ids_bus "changed:12345" 5 3
                  plain_never_raises (plain_never_defers ∅) H3)
           ids_listeners_are_sets).
Defined.

Lemma pending_promise_stalls_the_publish_witness :
  r_act (publish_and_wait one_async ids_bus "changed:12345" 5 ∅ []) =
    Awaiting "changed:12345" 5 [7] ["changed"; "*"] ∧
  r_store (publish_and_wait one_async ids_bus "changed:12345" 5 ∅ []) !! 7 = None ∧
  r_log (run one_async [Wake; Settle 8 true; Wake]
           (publish_and_wait one_async ids_bus "changed:12345" 5 ∅ [])) =
  r_log (publish_and_wait one_async ids_bus "changed:12345" 5 ∅ []).
Proof.
  assert (Hact : r_act (publish_and_wait one_async ids_bus "changed:12345" 5 ∅ []) =
                 Awaiting "changed:12345" 5 [7] ["changed"; "*"])
    by (vm_compute; reflexivity).
  assert (Hst : r_store (publish_and_wait one_async ids_bus "changed:12345" 5 ∅ [])
                  !! 7 = None) by (vm_compute; reflexivity).
  assert (Hno : ∀ ok, Settle 7 ok ∉ [Wake; Settle 8 true; Wake]).
  { intros ok Hin. repeat (apply elem_of_cons in Hin as [Hin|Hin]; [discriminate|]).
    by apply elem_of_nil in Hin. }
  split; [exact Hact|]. split; [exact Hst|].
  exact (proj1 (pending_promise_stalls_the_publish one_async ids_bus
                  "changed:12345" 5 ∅ [] [Wake; Settle 8 true; Wake]
                  "changed:12345" 5 [7] ["changed"; "*"] 7
                  Hact (list_elem_of_here _ _) Hst Hno)).
Defined.

Lemma emptied_channel_units_stay_silent_witness :
  wf ids_bus ∧ _subs ids_bus !! "changed" = Some 0 ∧
  registered (unsubscribe (Thunk (inl "changed") 1) no_arrays ids_bus).1
    "changed" = [] ∧
  registered (mutate_all (unsubscribe (Thunk (inl "changed") 1) no_arrays ids_bus).1
                [(no_arrays, Subscribe (inl "changed") 9)]) "changed" = [9] ∧
  run_task plain
    (mutate_all (unsubscribe (Thunk (inl "changed") 1) no_arrays ids_bus).1
       [(no_arrays, Subscribe (inl "changed") 9)])
    (Task (A_Set 0) "changed" 5) [] = ([], true).
Proof.
  assert (Hk : _subs ids_bus !! "changed" = Some 0) by (vm_compute; reflexivity).
  assert (He : registered (unsubscribe (Thunk (inl "changed") 1) no_arrays
                             ids_bus).1 "changed" = [])
    by (vm_compute; reflexivity).
  split; [exact ids_bus_wf|]. split; [exact Hk|]. split; [exact He|].
  split; [vm_compute; reflexivity|].
  exact (proj2 (emptied_channel_units_stay_silent plain ids_bus
                  (Thunk (inl "changed") 1) no_arrays "changed" 0
                  [(no_arrays, Subscribe (inl "changed") 9)]
                  "changed" 5 [] ids_bus_wf Hk He)).
Defined.

Lemma inherited_names_are_not_served_witness :
  wf ids_bus ∧ inherited "toString" = true ∧
  on (inl "toString") 9 no_arrays ids_bus = (ids_bus, None) ∧
  sendAndWait plain ids_bus "toString" 5 [] = ([], Rejected) ∧
  w_log (drain plain (sendLater "toString" 5 (World ids_bus [] []))) = [].
Proof.
  assert (Hi : inherited "toString" = true) by (vm_compute; reflexivity).
  split; [exact ids_bus_wf|]. split; [exact Hi|].
  destruct (inherited_names_are_not_served plain ids_bus "toString" 9 no_arrays
              ids_bus_wf Hi) as (Hon & _ & _ & Hsend & _ & Hlater).
  split; [exact Hon|]. split; [exact (Hsend 5 [])|exact (Hlater 5 [])].
Defined.
